(** * Seat-lock coordination of [server.js]

    A shallow embedding of the Socket.IO part of [server.js]: the lock
    table [lockedSeats], the expiry timer and the three handlers
    [joinEvent], [lockSeat] and [unlockSeat], followed by the properties
    of the seat-lock engine; the origin check of the CORS middleware and
    the error middleware are embedded as well.

    Modelling choices, all read off the source:
    - a message payload is a JSON value ([JsVal]); numbers are the
      integer-valued ones (seat indices, ids, [Date.now()] readings),
      written [JNum n] for the double whose value is [n];
    - [lockedSeats] and each per-event object are used as maps from
      property keys to values: they are [gmap string _], looked up through
      the key conversion [to_key] that JavaScript applies to [obj[k]].
      A per-event object also answers for the members it inherits from
      [Object.prototype] ([inherited_members]): a seat access finds them
      when the seat has no lock ([Slot]). What the tables cannot hold is
      left out: an [eventId] that names an inherited member makes
      [lockedSeats[eventId]] a built-in object, and a lock assigned to
      the seat [__proto__] replaces the prototype of the event object
      instead of becoming a property. The handlers are faithful on the
      requests that avoid both ([plain_delivery]) in the states reached
      through such requests ([plain_state]), where the built-in objects
      are as the runtime made them; the properties that depend on it
      say so;
    - [Object.keys] lists a map's keys once each; the order in which a
      loop visits them is the order of [map_to_list], so statements about
      a whole loop are up to permutation;
    - [Date.now()] is an argument [now] of each handler;
    - [socket.join], [socket.emit], [io.to(room).emit] and the console
      append to a trace of effects and do not fail;
    - a handler is a computation in the monad [JS]: it threads the table
      and the trace, and may complete abruptly ([Throw]), which a
      [try]/[catch] turns into the handler of the [catch] clause. *)

From Stdlib Require Import ZArith String List.
From stdpp Require Import gmap strings list fin_maps pretty.

Local Open Scope string_scope.
Local Open Scope Z_scope.

#[local] Set Warnings "-register-all".

(** ** JSON values and the conversions the handlers apply to them *)

Inductive JsVal : Type :=
| JUndefined
| JNull
| JBool (b : bool)
| JNum (n : Z)
| JStr (s : string)
| JArr (elems : list JsVal)
| JObj (fields : list (string * JsVal)).

(** [!v]: the falsy values are [undefined], [null], [false], [0] and the
    empty string; arrays and objects are truthy. *)
Definition falsy (v : JsVal) : bool :=
  match v with
  | JUndefined | JNull => true
  | JBool b => negb b
  | JNum n => n =? 0
  | JStr s => String.eqb s ""
  | JArr _ | JObj _ => false
  end.

Definition truthy (v : JsVal) : bool := negb (falsy v).

(** [v === undefined]. *)
Definition is_undefined (v : JsVal) : bool :=
  match v with JUndefined => true | _ => false end.

(** [a === b] between a value stored from an earlier message and a value
    of the current message: primitives compare by type and value; an
    array or object is a fresh reference in every message, so it is never
    identical to a stored one. *)
Definition strict_eq (a b : JsVal) : bool :=
  match a, b with
  | JUndefined, JUndefined => true
  | JNull, JNull => true
  | JBool x, JBool y => Bool.eqb x y
  | JNum x, JNum y => x =? y
  | JStr x, JStr y => String.eqb x y
  | _, _ => false
  end.

(** Own property [name] of a parsed JSON object; a repeated name keeps
    its last value. *)
Fixpoint own_property (name : string) (fields : list (string * JsVal)) : option JsVal :=
  match fields with
  | [] => None
  | (k, v) :: rest =>
      match own_property name rest with
      | Some w => Some w
      | None => if String.eqb k name then Some v else None
      end
  end.

(** [Number::toString] on an integer-valued double [n]. Up to [2^53] the
    digits are those of the integer. Above, they are the shortest decimal
    that rounds back to [n] (to nearest, ties to even), the closest one
    when there are several, followed by zeros up to 21 digits in all
    and written with an exponent beyond: [2^60] gives
    ["1152921504606847000"] and [10^21] gives ["1e+21"]. *)
Definition decimal_digits (n : Z) : Z := Z.of_nat (String.length (pretty n)).

(** The decimal [v] rounds to the double [n], [n > 2^53]. *)
Definition rounds_to (n v : Z) : bool :=
  let e := Z.log2 n - 52 in
  let m := n / 2 ^ e in
  let above := 2 ^ (e - 1) in
  let below := if m =? 2 ^ 52 then 2 ^ (e - 2) else 2 ^ (e - 1) in
  if Z.even m then (n - below <=? v) && (v <=? n + above)
  else (n - below <? v) && (v <? n + above).

(** The closest decimal with [k] significant digits that rounds to [n],
    for the least such [k]. *)
Fixpoint shortest_decimal (fuel : nat) (k : Z) (n : Z) : Z :=
  match fuel with
  | O => n
  | S fuel' =>
      let q := decimal_digits n - k in
      if q <? 0 then n else
      let lower := n / 10 ^ q * 10 ^ q in
      let upper := lower + 10 ^ q in
      match rounds_to n lower, rounds_to n upper with
      | true, true =>
          if n - lower <? upper - n then lower
          else if upper - n <? n - lower then upper
          else if Z.even (n / 10 ^ q) then lower else upper
      | true, false => lower
      | false, true => upper
      | false, false => shortest_decimal fuel' (k + 1) n
      end
  end.

Fixpoint strip_zeros (fuel : nat) (v : Z) : Z :=
  match fuel with
  | O => v
  | S fuel' => if (0 <? v) && (v mod 10 =? 0) then strip_zeros fuel' (v / 10) else v
  end.

Definition exponent_form (v : Z) : string :=
  match pretty (strip_zeros 400 v) with
  | String c rest =>
      String c (match rest with EmptyString => "" | _ => "." +:+ rest end)
      +:+ "e+" +:+ pretty (decimal_digits v - 1)
  | EmptyString => ""
  end.

Definition number_to_string (n : Z) : string :=
  if Z.abs n <=? 2 ^ 53 then pretty n
  else
    let v := shortest_decimal 17 1 (Z.abs n) in
    (if n <? 0 then "-" else "")
    +:+ (if decimal_digits v <=? 21 then pretty v else exponent_form v).

(** [ToString(v)], as applied by a template literal and by a property
    access [obj[v]]. [None] is the [TypeError] "Cannot convert object to
    primitive value": an object received as JSON has no callable own
    [toString], so an own [toString] field hides the inherited method and
    the conversion fails. An array joins the conversions of its elements
    with commas, [undefined] and [null] elements giving the empty string. *)
Fixpoint to_string (v : JsVal) : option string :=
  match v with
  | JUndefined => Some "undefined"
  | JNull => Some "null"
  | JBool true => Some "true"
  | JBool false => Some "false"
  | JNum n => Some (number_to_string n)
  | JStr s => Some s
  | JArr elems =>
      (fix join (l : list JsVal) : option string :=
         match l with
         | [] => Some ""
         | x :: rest =>
             let sx := match x with
                       | JUndefined | JNull => Some ""
                       | _ => to_string x
                       end in
             match rest with
             | [] => sx
             | _ :: _ =>
                 match sx, join rest with
                 | Some s, Some r => Some (s +:+ "," +:+ r)
                 | _, _ => None
                 end
             end
         end) elems
  | JObj fields =>
      match own_property "toString" fields with
      | Some _ => None
      | None => Some "[object Object]"
      end
  end.

(** [ToPropertyKey(v)] of a JSON value is its string conversion. *)
Definition to_key (v : JsVal) : option string := to_string v.

(** [p.name] for the parameter pattern [{ eventId, seatIndex, userId }]:
    a field the payload does not have reads as [undefined]. *)
Definition get_field (p : JsVal) (name : string) : JsVal :=
  match p with
  | JObj fields => default JUndefined (own_property name fields)
  | _ => JUndefined
  end.

(** ** The lock table and the effects of a handler *)

Record Lock : Type := mkLock { userId : JsVal; timestamp : Z }.

Inductive Effect : Type :=
| SocketJoin (room : string)
| EmitLockedSeats (activeLocks : gmap string JsVal)
| EmitSeatLockFailed (seatIndex : JsVal) (reason : string)
| BroadcastSeatLocked (room : string) (seatIndex user : JsVal)
| BroadcastSeatUnlocked (room : string) (seatIndex : JsVal)
| ConsoleError (label : string)
| ConsoleLog (label : string).

Record World : Type := mkWorld {
  lockedSeats : gmap string (gmap string Lock);
  emitted : list Effect
}.

Definition LOCK_EXPIRY_TIME : Z := 5 * 60 * 1000.

(** [event-${eventId}] for an event id already converted to a string. *)
Definition room_of (ek : string) : string := "event-" +:+ ek.

(** ** The monad of handler bodies *)

Inductive Completion (A : Type) : Type :=
| Normal (a : A)
| Throw.
Arguments Normal {A} a.
Arguments Throw {A}.

Definition JS (A : Type) : Type := World → Completion A * World.

Definition ret {A} (a : A) : JS A := λ w, (Normal a, w).

Definition bind {A B} (m : JS A) (k : A → JS B) : JS B :=
  λ w, match m w with
       | (Normal a, w') => k a w'
       | (Throw, w') => (Throw, w')
       end.

Notation "'let*' x := m 'in' k" := (bind m (λ x, k))
  (at level 10, x name, m at level 100, k at level 200, only parsing).
Notation "m >>> k" := (bind m (λ _, k))
  (at level 100, k at level 200, right associativity, only parsing).

Definition throw {A} : JS A := λ w, (Throw, w).

(** A conversion that may raise [TypeError]. *)
Definition lift {A} (o : option A) : JS A :=
  match o with Some a => ret a | None => throw end.

Definition effect (e : Effect) : JS unit :=
  λ w, (Normal tt, mkWorld (lockedSeats w) (emitted w ++ [e])).

Definition read_table : JS (gmap string (gmap string Lock)) :=
  λ w, (Normal (lockedSeats w), w).

Definition write_table (t : gmap string (gmap string Lock)) : JS unit :=
  λ w, (Normal tt, mkWorld t (emitted w)).

(** [try { body } catch (error) { handler }]: what [body] did before it
    threw stays done. *)
Definition try_catch (body handler : JS unit) : JS unit :=
  λ w, match body w with
       | (Normal _, w') => (Normal tt, w')
       | (Throw, w') => handler w'
       end.

(** [keys.forEach(k => body(k))]. *)
Fixpoint for_each (keys : list string) (body : string → JS unit) : JS unit :=
  match keys with
  | [] => ret tt
  | k :: rest => body k >>> for_each rest body
  end.

(** [Object.keys(m)]. *)
Definition object_keys {V} (m : gmap string V) : list string := (map_to_list m).*1.

(** ** Accesses to [lockedSeats] *)

(** The own properties of [Object.prototype]: every object created by
    [{}] inherits them, and a property access finds them when the object
    has no own property of that name. All of them are truthy (functions,
    and for [__proto__] the prototype itself) and none has a [userId] or
    a [timestamp]. *)
Definition inherited_members : list string :=
  [ "constructor"; "__defineGetter__"; "__defineSetter__"; "hasOwnProperty";
    "__lookupGetter__"; "__lookupSetter__"; "isPrototypeOf";
    "propertyIsEnumerable"; "toString"; "valueOf"; "__proto__";
    "toLocaleString" ].

Definition inherited (k : string) : bool := bool_decide (k ∈ inherited_members).

(** What [lockedSeats[eventId][seatIndex]] evaluates to on the object of
    an event: the lock stored for the seat, an inherited member, or
    [undefined]. *)
Inductive Slot : Type :=
| SlotLock (lock : Lock)
| SlotInherited
| SlotUndefined.

Definition slot_of (seats : gmap string Lock) (sk : string) : Slot :=
  match seats !! sk with
  | Some lock => SlotLock lock
  | None => if inherited sk then SlotInherited else SlotUndefined
  end.

(** [lockedSeats[eventId]]: the per-event object, or [undefined] (for an
    [eventId] that is not the name of an inherited member). *)
Definition event_seats (ek : string) : JS (option (gmap string Lock)) :=
  let* t := read_table in ret (t !! ek).

(** [lockedSeats[eventId][seatIndex]]: reading a property of [undefined]
    raises [TypeError]. *)
Definition seat_lock (ek sk : string) : JS Slot :=
  let* o := event_seats ek in
  match o with
  | Some seats => ret (slot_of seats sk)
  | None => throw
  end.

(** [lockedSeats[eventId][seatIndex] = lock] (for a seat other than
    [__proto__]: the inherited members are writable, so the assignment
    makes an own property). *)
Definition set_seat_lock (ek sk : string) (lock : Lock) : JS unit :=
  let* t := read_table in
  match t !! ek with
  | Some seats => write_table (<[ek := <[sk := lock]> seats]> t)
  | None => throw
  end.

(** [delete lockedSeats[eventId][seatIndex]]: it removes the own property
    if there is one, and does nothing to an inherited member. *)
Definition delete_seat_lock (ek sk : string) : JS unit :=
  let* t := read_table in
  match t !! ek with
  | Some seats => write_table (<[ek := delete sk seats]> t)
  | None => throw
  end.

(** ** The expiry timer: the callback of [setInterval(..., 60000)] *)

(** The body of the inner [forEach]. On an inherited member
    [lock.timestamp] is [undefined] and the comparison with [NaN] is
    false; on [undefined] reading it raises. *)
Definition sweep_seat (now : Z) (ek sk : string) : JS unit :=
  let* o := seat_lock ek sk in
  match o with
  | SlotUndefined => throw
  | SlotInherited => ret tt
  | SlotLock lock =>
      if now - timestamp lock >? LOCK_EXPIRY_TIME then
        delete_seat_lock ek sk >>>
        effect (BroadcastSeatUnlocked (room_of ek) (JStr sk))
      else ret tt
  end.

Definition sweep_event (now : Z) (ek : string) : JS unit :=
  let* o := event_seats ek in
  match o with
  | None => throw
  | Some seats => for_each (object_keys seats) (sweep_seat now ek)
  end.

Definition sweep_tick (now : Z) : JS unit :=
  let* t := read_table in
  for_each (object_keys t) (sweep_event now).

(** ** [socket.on('joinEvent', (eventId) => ...)] *)

(** The body of the [forEach] that fills [activeLocks]; [None] is the
    [TypeError] of reading [lock.timestamp] on [undefined]. *)
Definition collect_active (now : Z) (seats : gmap string Lock)
    (acc : option (gmap string JsVal)) (sk : string) : option (gmap string JsVal) :=
  match acc, slot_of seats sk with
  | Some activeLocks, SlotLock lock =>
      if now - timestamp lock <=? LOCK_EXPIRY_TIME
      then Some (<[sk := userId lock]> activeLocks)
      else Some activeLocks
  | Some activeLocks, SlotInherited => Some activeLocks
  | _, _ => None
  end.

Definition active_locks (now : Z) (seats : gmap string Lock) : option (gmap string JsVal) :=
  foldl (collect_active now seats) (Some ∅) (object_keys seats).

Definition joinEvent (now : Z) (eventId : JsVal) : JS unit :=
  try_catch
    (let* ek := lift (to_string eventId) in
     effect (SocketJoin (room_of ek)) >>>
     let* o := event_seats ek in
     let* activeLocks := match o with
                   | Some seats => lift (active_locks now seats)
                   | None => ret ∅
                   end in
     effect (EmitLockedSeats activeLocks))
    (effect (ConsoleError "joinEvent Error:")).

(** ** [socket.on('lockSeat', ({ eventId, seatIndex, userId }) => ...)] *)

(** The body of the handler, on the fields of the payload. A renewal
    assigns [existingLock.timestamp] in place: the lock keeps its
    [userId]. An inherited member found in place of a lock is truthy,
    but its [timestamp] is [undefined] and the comparison with [NaN] is
    false: the [else] branch runs, as for [undefined]. *)
Definition lockSeat_fields (now : Z) (eventId seatIndex user : JsVal) : JS unit :=
  try_catch
    (if falsy eventId || is_undefined seatIndex || falsy user then
       effect (EmitSeatLockFailed seatIndex "Invalid lock request")
     else
       let* ek := lift (to_key eventId) in
       let* o := event_seats ek in
       (if o is None then
          let* t := read_table in write_table (<[ek := ∅]> t)
        else ret tt) >>>
       let* sk := lift (to_key seatIndex) in
       let* existingLock := seat_lock ek sk in
       match existingLock with
       | SlotLock lock =>
           if now - timestamp lock <=? LOCK_EXPIRY_TIME then
             if negb (strict_eq (userId lock) user) then
               effect (EmitSeatLockFailed seatIndex "Seat already locked")
             else
               set_seat_lock ek sk (mkLock (userId lock) now)
           else
             set_seat_lock ek sk (mkLock user now) >>>
             effect (BroadcastSeatLocked (room_of ek) seatIndex user)
       | SlotInherited | SlotUndefined =>
           set_seat_lock ek sk (mkLock user now) >>>
           effect (BroadcastSeatLocked (room_of ek) seatIndex user)
       end)
    (effect (EmitSeatLockFailed seatIndex "Server error")).

(** The parameter pattern is matched before the [try] is entered:
    destructuring [undefined] or [null] raises outside of it. *)
Definition destructured {A} (payload : JsVal) (k : JsVal → JsVal → JsVal → JS A) : JS A :=
  match payload with
  | JUndefined | JNull => throw
  | _ => k (get_field payload "eventId") (get_field payload "seatIndex")
           (get_field payload "userId")
  end.

Definition lockSeat (now : Z) (payload : JsVal) : JS unit :=
  destructured payload (lockSeat_fields now).

(** ** [socket.on('unlockSeat', ({ eventId, seatIndex, userId }) => ...)] *)

(** The body of the handler, on the fields of the payload. An inherited
    member found in place of a lock passes the outer test; its [userId]
    and [timestamp] are [undefined], so of the three tests only
    [!userId] and [undefined === userId] can hold. *)

Definition unlockSeat_fields (now : Z) (eventId seatIndex user : JsVal) : JS unit :=
  try_catch
    (let* ek := lift (to_key eventId) in
     let* o := event_seats ek in
     match o with
     | None => ret tt
     | Some seats =>
         let* sk := lift (to_key seatIndex) in
         match slot_of seats sk with
         | SlotUndefined => ret tt
         | SlotLock lock =>
             if falsy user || strict_eq (userId lock) user
                || (now - timestamp lock >? LOCK_EXPIRY_TIME) then
               delete_seat_lock ek sk >>>
               effect (BroadcastSeatUnlocked (room_of ek) seatIndex)
             else ret tt
         | SlotInherited =>
             if falsy user || strict_eq JUndefined user || false then
               delete_seat_lock ek sk >>>
               effect (BroadcastSeatUnlocked (room_of ek) seatIndex)
             else ret tt
         end
     end)
    (effect (ConsoleLog "unlockSeat error:")).

Definition unlockSeat (now : Z) (payload : JsVal) : JS unit :=
  destructured payload (unlockSeat_fields now).

(** ** Running a handler on a table *)

(** One delivery of a message (or one timer tick) on table [t]: how the
    callback completed, the table it leaves and what it emitted. *)
Definition run (h : JS unit) (t : gmap string (gmap string Lock))
  : Completion unit * gmap string (gmap string Lock) * list Effect :=
  let '(c, w) := h (mkWorld t []) in (c, lockedSeats w, emitted w).

(** The payload a client sends for [lockSeat] and [unlockSeat]. *)
Definition request (eventId seatIndex user : JsVal) : JsVal :=
  JObj [("eventId", eventId); ("seatIndex", seatIndex); ("userId", user)].

(** ** Vocabulary of the properties *)

(** The payload [p] is destructured into the fields [e], [s] and [u]. *)
Definition carries (p e s u : JsVal) : Prop :=
  p ≠ JUndefined ∧ p ≠ JNull ∧
  get_field p "eventId" = e ∧ get_field p "seatIndex" = s ∧ get_field p "userId" = u.

(** The request passes the guard
    [!eventId || seatIndex === undefined || !userId]. *)
Definition valid_request (e s u : JsVal) : bool :=
  negb (falsy e || is_undefined s || falsy u).

(** A lock is active at [now] when [now - timestamp <= LOCK_EXPIRY_TIME],
    and expired otherwise. *)
Definition active (now : Z) (lock : Lock) : Prop :=
  now - timestamp lock ≤ LOCK_EXPIRY_TIME.

Definition expired (now : Z) (lock : Lock) : bool :=
  now - timestamp lock >? LOCK_EXPIRY_TIME.

(** The lock the table holds for a seat, if any. *)
Definition lock_at (t : gmap string (gmap string Lock)) (ek sk : string) : option Lock :=
  t !! ek ≫= (.!! sk).

(** The seat access [lockedSeats[eventId][seatIndex]] finds an inherited
    member: the event has an entry, the seat has no lock and its key
    names a member of [Object.prototype]. *)
Definition inherited_slot (t : gmap string (gmap string Lock)) (ek sk : string) : bool :=
  match t !! ek with
  | Some seats => match seats !! sk with Some _ => false | None => inherited sk end
  | None => false
  end.

(** The seats of an event, an event without entry having none. *)
Definition seats_of (t : gmap string (gmap string Lock)) (ek : string) : gmap string Lock :=
  default ∅ (t !! ek).

(** What the loop of [joinEvent] computes, as a map operation: the
    holders of the locks that are active at [now]. *)
Definition snapshot (now : Z) (seats : gmap string Lock) : gmap string JsVal :=
  omap (λ lock, if now - timestamp lock <=? LOCK_EXPIRY_TIME
                then Some (userId lock) else None) seats.

(** What one timer tick computes, as map and list operations: the locks
    it keeps, and the broadcasts it sends. *)
Definition keep_active (now : Z) (seats : gmap string Lock) : gmap string Lock :=
  filter (λ kv, expired now kv.2 = false) seats.

Definition expired_keys (now : Z) (seats : gmap string Lock) : list string :=
  filter (λ sk, expired now <$> seats !! sk = Some true) (object_keys seats).

Definition seat_unlocked (ek sk : string) : Effect :=
  BroadcastSeatUnlocked (room_of ek) (JStr sk).

Definition sweep_broadcasts (now : Z) (t : gmap string (gmap string Lock)) : list Effect :=
  object_keys t ≫= λ ek, seat_unlocked ek <$> expired_keys now (seats_of t ek).

(** The table left by timer ticks run one after the other at the times
    [ticks]. *)
Definition after_ticks (ticks : list Z) (t : gmap string (gmap string Lock))
  : gmap string (gmap string Lock) :=
  foldl (λ t S, (run (sweep_tick S) t).1.2) t ticks.

(** ** The other callbacks of [server.js] *)

(** [a || b]. *)
Definition js_or (a b : JsVal) : JsVal := if truthy a then a else b.

Definition allowedOrigins : list string :=
  [ "https://gravit-client.vercel.app";
    "https://gravit-client-git-main-anil-daymas-projects.vercel.app";
    "https://gravit-client-j4h2z5j71-anil-daymas-projects.vercel.app" ].

(** [allowedOrigins.includes(v)]: only a string is equal to a string. *)
Definition includes (l : list string) (v : JsVal) : bool :=
  match v with
  | JStr s => bool_decide (s ∈ l)
  | _ => false
  end.

(** What the [origin] function of the CORS middleware passes to its
    callback: [callback(null, true)] or [callback(new Error(message))]. *)
Inductive CorsDecision : Type :=
| CorsAllow
| CorsError (message : string).

Definition cors_origin (origin : JsVal) : JS CorsDecision :=
  if falsy origin || includes allowedOrigins origin then ret CorsAllow
  else
    effect (ConsoleLog "❌ BLOCKED ORIGIN:") >>>
    ret (CorsError "Not allowed by CORS").

(** [res.status(code).json({ success, message })]. *)
Record JsonReply : Type := mkReply {
  reply_status : Z;
  reply_success : bool;
  reply_message : JsVal
}.

(** The error middleware [(err, req, res, next) => ...]. The error is a
    value with fields, of which only [message] is read; reading
    [err.message] of [undefined] or [null] raises. *)
Definition error_middleware (err : JsVal) : JS JsonReply :=
  match err with
  | JUndefined | JNull => throw
  | _ =>
      effect (ConsoleError "🔥 SERVER ERROR:") >>>
      ret (mkReply 500 false
             (js_or (get_field err "message") (JStr "Internal server error")))
  end.

(** The callbacks that the server runs on the lock table, one at a time:
    the handlers registered by [io.on('connection', ...)] and the timer. *)
Inductive Delivery : Type :=
| Connection
| JoinEvent (eventId : JsVal)
| LockSeat (payload : JsVal)
| UnlockSeat (payload : JsVal)
| Disconnect
| TimerTick.

Definition deliver (now : Z) (d : Delivery) : JS unit :=
  match d with
  | Connection => effect (ConsoleLog "⚡ User connected:")
  | JoinEvent eventId => joinEvent now eventId
  | LockSeat payload => lockSeat now payload
  | UnlockSeat payload => unlockSeat now payload
  | Disconnect => effect (ConsoleLog "❌ User disconnected:")
  | TimerTick => sweep_tick now
  end.

(** The table left by a run of callbacks, each with the reading of the
    clock it is given; [None] when an exception leaves one of them (the
    run ends there). *)
Fixpoint deliver_all (ds : list (Z * Delivery)) (t : gmap string (gmap string Lock))
  : option (gmap string (gmap string Lock)) :=
  match ds with
  | [] => Some t
  | (now, d) :: rest =>
      match run (deliver now d) t with
      | (Normal _, t', _) => deliver_all rest t'
      | (Throw, _, _) => None
      end
  end.

(** ** Plain requests and plain states *)

(** The [eventId] does not name an inherited member: [lockedSeats[eventId]]
    is the entry of the event, or [undefined]. *)
Definition plain_event (eventId : JsVal) : bool :=
  match to_key eventId with
  | Some ek => negb (inherited ek)
  | None => true
  end.

(** The [seatIndex] is not [__proto__]: a lock assigned to the seat
    becomes an own property of the event object. *)
Definition plain_seat (seatIndex : JsVal) : bool :=
  match to_key seatIndex with
  | Some sk => negb (String.eqb sk "__proto__")
  | None => true
  end.

(** The callbacks that read and write nothing but the tables: every
    callback, except a [lockSeat] or [unlockSeat] whose [eventId] names
    an inherited member and a [lockSeat] on the seat [__proto__]. *)
Definition plain_delivery (d : Delivery) : bool :=
  match d with
  | LockSeat p =>
      plain_event (get_field p "eventId") && plain_seat (get_field p "seatIndex")
  | UnlockSeat p => plain_event (get_field p "eventId")
  | _ => true
  end.

(** The tables that the server reaches from its start through plain
    callbacks. In these states [Object.prototype], [Object.keys] and the
    prototypes of the event objects are as the runtime made them. *)
Definition plain_state (t : gmap string (gmap string Lock)) : Prop :=
  ∃ ds, Forall (λ nd, plain_delivery nd.2 = true) ds ∧ deliver_all ds ∅ = Some t.

(** ** Further vocabulary *)

Definition nullish (p : JsVal) : bool :=
  match p with JUndefined | JNull => true | _ => false end.

(** The table after [if (!lockedSeats[eventId]) lockedSeats[eventId] = {}]. *)
Definition with_event (ek : string) (t : gmap string (gmap string Lock))
  : gmap string (gmap string Lock) :=
  match t !! ek with
  | Some _ => t
  | None => <[ek := ∅]> t
  end.

(** Every stored lock has a non-empty holder. *)
Definition holders_nonempty (t : gmap string (gmap string Lock)) : Prop :=
  ∀ ek sk lock, lock_at t ek sk = Some lock → falsy (userId lock) = false.

(** The [userId] that a [lockSeat] or [unlockSeat] payload carries. *)
Definition claimant_of (payload : JsVal) : JsVal := get_field payload "userId".


(** The lock of a seat that counts at [now]: the stored one unless it has
    expired. *)
Definition active_lock_at (now : Z) (t : gmap string (gmap string Lock))
    (ek sk : string) : option Lock :=
  match lock_at t ek sk with
  | Some lock => if expired now lock then None else Some lock
  | None => None
  end.

(** Arrays and objects: the values that [===] compares by reference. *)
Definition is_reference (v : JsVal) : bool :=
  match v with JArr _ | JObj _ => true | _ => false end.

(** ** Proof automation *)

Ltac unfold_js :=
  unfold run, try_catch, seat_lock, set_seat_lock, delete_seat_lock,
    event_seats, bind, lift, ret, throw, effect, read_table, write_table;
  simpl.

(** * Properties *)

(** ** Values *)

Lemma strict_eq_true (a b : JsVal) : strict_eq a b = true → a = b.
Proof.
  destruct a, b; simpl; try discriminate; try reflexivity.
  - intros H. apply Bool.eqb_prop in H. congruence.
  - intros H. apply Z.eqb_eq in H. congruence.
  - intros H. apply String.eqb_eq in H. congruence.
Qed.

Lemma strict_eq_ne (a b : JsVal) : a ≠ b → strict_eq a b = false.
Proof.
  intros Hne. destruct (strict_eq a b) eqn:E; [|reflexivity].
  apply strict_eq_true in E. contradiction.
Qed.

Lemma room_of_inj : Inj (=) (=) room_of.
Proof. intros a b H. unfold room_of in H. by simplify_eq/=. Qed.

Lemma valid_request_true e s u :
  valid_request e s u = true ↔ falsy e = false ∧ s ≠ JUndefined ∧ falsy u = false.
Proof.
  unfold valid_request. destruct (falsy e), (falsy u), s; simpl; split;
    try discriminate; try (intros (? & ? & ?); congruence);
    intros _; repeat split; congruence.
Qed.

(** The parameter pattern of a payload that carries the three fields. *)
Lemma destructured_carries {A} p e s u (k : JsVal → JsVal → JsVal → JS A) :
  carries p e s u → destructured p k = k e s u.
Proof.
  intros (Hu & Hn & <- & <- & <-). destruct p; try reflexivity; contradiction.
Qed.

Lemma carries_request e s u : carries (request e s u) e s u.
Proof. repeat split; discriminate. Qed.

Example scenario_lock :
  run (lockSeat 0 (request (JStr "E1") (JNum 3) (JStr "A"))) ∅
  = (Normal tt, {[ "E1" := {[ "3" := mkLock (JStr "A") 0 ]} ]},
     [BroadcastSeatLocked "event-E1" (JNum 3) (JStr "A")]).
Proof. vm_compute. reflexivity. Qed.

(** ** Expiry *)

Lemma expired_leb now lock :
  expired now lock = negb (now - timestamp lock <=? LOCK_EXPIRY_TIME).
Proof. unfold expired. by rewrite Z.gtb_ltb, Z.ltb_antisym. Qed.

Lemma expired_true now lock :
  expired now lock = true ↔ now - timestamp lock > LOCK_EXPIRY_TIME.
Proof. unfold expired. rewrite Z.gtb_gt. reflexivity. Qed.

Lemma expired_false now lock : expired now lock = false ↔ active now lock.
Proof.
  unfold active. rewrite expired_leb, Bool.negb_false_iff. apply Z.leb_le.
Qed.

(** ** Plain states *)

Lemma plain_state_start : plain_state ∅.
Proof. exists []. split; [constructor|reflexivity]. Qed.

(** The table in which claimant "A" holds seat 3 of event "E1" since time
    0 is reached by one [lockSeat]. *)
Lemma plain_state_one_lock :
  plain_state {[ "E1" := {[ "3" := mkLock (JStr "A") 0 ]} ]}.
Proof.
  exists [(0, LockSeat (request (JStr "E1") (JNum 3) (JStr "A")))].
  split; [repeat constructor|vm_compute; reflexivity].
Qed.

Lemma primitive_strict_eq u : is_reference u = false → strict_eq u u = true.
Proof.
  destruct u; simpl; try done; intros _.
  - by destruct b.
  - apply Z.eqb_refl.
  - apply String.eqb_refl.
Qed.

(** ** [lockSeat] *)

(** The table after a lock is written for a seat. *)
Lemma lock_at_insert t ek sk lock ek' sk' :
  lock_at (<[ek := <[sk := lock]> (seats_of t ek)]> t) ek' sk'
  = if decide (ek = ek' ∧ sk = sk') then Some lock else lock_at t ek' sk'.
Proof.
  unfold lock_at, seats_of. destruct (decide (ek = ek')) as [<-|Hne].
  - rewrite lookup_insert_eq. simpl. destruct (decide (sk = sk')) as [<-|Hs].
    + rewrite lookup_insert_eq. rewrite decide_True; done.
    + rewrite lookup_insert_ne by done. rewrite decide_False by tauto.
      destruct (t !! ek); done.
  - rewrite lookup_insert_ne by done. rewrite decide_False by tauto. done.
Qed.

(** A request that passes the guard, on ids that convert to keys. *)
Lemma lockSeat_fields_valid t now e s u ek sk :
  valid_request e s u = true → to_key e = Some ek → to_key s = Some sk →
  run (lockSeat_fields now e s u) t =
    match lock_at t ek sk with
    | Some lock =>
        if expired now lock then
          (Normal tt, <[ek := <[sk := mkLock u now]> (seats_of t ek)]> t,
           [BroadcastSeatLocked (room_of ek) s u])
        else if strict_eq (userId lock) u then
          (Normal tt, <[ek := <[sk := mkLock (userId lock) now]> (seats_of t ek)]> t, [])
        else (Normal tt, t, [EmitSeatLockFailed s "Seat already locked"])
    | None =>
        (Normal tt, <[ek := <[sk := mkLock u now]> (seats_of t ek)]> t,
         [BroadcastSeatLocked (room_of ek) s u])
    end.
Proof.
  intros Hv He Hs. unfold valid_request in Hv. apply Bool.negb_true_iff in Hv.
  unfold lockSeat_fields, lock_at, seats_of. unfold_js. rewrite Hv, He. simpl.
  destruct (t !! ek) as [seats|] eqn:Ht; simpl; rewrite Hs; simpl.
  - rewrite Ht. simpl. unfold slot_of.
    destruct (seats !! sk) as [lock|] eqn:Hl; simpl.
    + rewrite expired_leb.
      destruct (now - timestamp lock <=? LOCK_EXPIRY_TIME); simpl.
      * destruct (strict_eq (userId lock) u); simpl; [|done]. by rewrite Ht.
      * by rewrite Ht.
    + destruct (inherited sk); simpl; by rewrite Ht.
  - rewrite lookup_insert_eq. simpl. unfold slot_of. rewrite lookup_empty.
    destruct (inherited sk); simpl;
      rewrite lookup_insert_eq; by rewrite insert_insert_eq.
Qed.

Lemma lockSeat_carries t now p e s u :
  carries p e s u → run (lockSeat now p) t = run (lockSeat_fields now e s u) t.
Proof. intros Hp. unfold lockSeat. by rewrite (destructured_carries p e s u). Qed.


(** A valid request for a seat that has no lock, or only an expired one. *)
Lemma lockSeat_free t now p e s u ek sk :
  carries p e s u → valid_request e s u = true →
  to_key e = Some ek → to_key s = Some sk →
  (∀ lock, lock_at t ek sk = Some lock → expired now lock = true) →
  run (lockSeat now p) t
  = (Normal tt, <[ek := <[sk := mkLock u now]> (seats_of t ek)]> t,
     [BroadcastSeatLocked (room_of ek) s u]).
Proof.
  intros Hp Hv He Hs Hfree. rewrite (lockSeat_carries _ _ _ _ _ _ Hp).
  rewrite (lockSeat_fields_valid _ _ _ _ _ ek sk Hv He Hs).
  destruct (lock_at t ek sk) as [lock|]; [|done]. by rewrite (Hfree lock).
Qed.



(** X22. In a state reached through plain requests, a request that passes
    validation, for an event whose id does not name an inherited member
    and a seat other than [__proto__] that has no entry or whose entry
    has [now - timestamp > LOCK_EXPIRY_TIME] (whoever held it), stores
    the lock [{userId, timestamp: now}] for the seat, sends no failure to
    the requester (the request is granted) and emits exactly one
    [seatLocked {seatIndex, userId}], to the room ["event-" + eventId];
    the locks of the other seats stay as they were. *)
Theorem lockSeat_grants_free_seat t now p e s u ek sk :
  carries p e s u → valid_request e s u = true →
  plain_state t →
  to_key e = Some ek → inherited ek = false →
  to_key s = Some sk → sk ≠ "__proto__" →
  (lock_at t ek sk = None ∨
   ∃ lock, lock_at t ek sk = Some lock ∧ now - timestamp lock > LOCK_EXPIRY_TIME) →
  let t' := <[ek := <[sk := mkLock u now]> (seats_of t ek)]> t in
  run (lockSeat now p) t = (Normal tt, t', [BroadcastSeatLocked ("event-" +:+ ek) s u]) ∧
  lock_at t' ek sk = Some (mkLock u now) ∧
  (∀ ek' sk', ¬ (ek = ek' ∧ sk = sk') → lock_at t' ek' sk' = lock_at t ek' sk').
Proof.
  intros Hp Hv _ He _ Hs _ Hfree t'. split; [|split].
  - apply (lockSeat_free t now p e s u ek sk); try done. intros lock Hl.
    destruct Hfree as [Hn | (lock' & Hl' & Hexp)]; [congruence|].
    apply expired_true. congruence.
  - unfold t'. rewrite lock_at_insert. by rewrite decide_True.
  - intros ek' sk' Hne. unfold t'. rewrite lock_at_insert. by rewrite decide_False.
Qed.

Lemma lockSeat_grants_free_seat_witness :
  run (lockSeat 300001 (request (JStr "E1") (JNum 3) (JStr "B")))
      {[ "E1" := {[ "3" := mkLock (JStr "A") 0 ]} ]}
  = (Normal tt,
     <[ "E1" := <[ "3" := mkLock (JStr "B") 300001 ]>
                  (seats_of {[ "E1" := {[ "3" := mkLock (JStr "A") 0 ]} ]} "E1") ]>
       {[ "E1" := {[ "3" := mkLock (JStr "A") 0 ]} ]},
     [BroadcastSeatLocked ("event-" +:+ "E1") (JNum 3) (JStr "B")]).
Proof.
  apply (lockSeat_grants_free_seat _ 300001 _ (JStr "E1") (JNum 3) (JStr "B") "E1" "3").
  - apply carries_request.
  - reflexivity.
  - apply plain_state_one_lock.
  - reflexivity.
  - reflexivity.
  - reflexivity.
  - discriminate.
  - right. exists (mkLock (JStr "A") 0).
    split; [vm_compute; reflexivity | unfold LOCK_EXPIRY_TIME; simpl; lia].
Defined.









(** ** [unlockSeat] *)

Lemma lock_at_delete t ek sk ek' sk' :
  lock_at (<[ek := delete sk (seats_of t ek)]> t) ek' sk'
  = if decide (ek = ek' ∧ sk = sk') then None else lock_at t ek' sk'.
Proof.
  unfold lock_at, seats_of. destruct (decide (ek = ek')) as [<-|Hne].
  - rewrite lookup_insert_eq. simpl. destruct (decide (sk = sk')) as [<-|Hs].
    + rewrite lookup_delete_eq. rewrite decide_True; done.
    + rewrite lookup_delete_ne by done. rewrite decide_False by tauto.
      destruct (t !! ek); done.
  - rewrite lookup_insert_ne by done. rewrite decide_False by tauto. done.
Qed.

Lemma unlockSeat_carries t now p e s u :
  carries p e s u → run (unlockSeat now p) t = run (unlockSeat_fields now e s u) t.
Proof. intros Hp. unfold unlockSeat. by rewrite (destructured_carries p e s u). Qed.

Lemma falsy_or_undefined u : falsy u || strict_eq JUndefined u || false = falsy u.
Proof. destruct u; simpl; by rewrite ?Bool.orb_false_r. Qed.

Lemma unlockSeat_fields_keys t now e s u ek sk :
  to_key e = Some ek → to_key s = Some sk →
  run (unlockSeat_fields now e s u) t =
    match lock_at t ek sk with
    | Some lock =>
        if falsy u || strict_eq (userId lock) u || expired now lock then
          (Normal tt, <[ek := delete sk (seats_of t ek)]> t,
           [BroadcastSeatUnlocked (room_of ek) s])
        else (Normal tt, t, [])
    | None =>
        if inherited_slot t ek sk && falsy u then
          (Normal tt, t, [BroadcastSeatUnlocked (room_of ek) s])
        else (Normal tt, t, [])
    end.
Proof.
  intros He Hs.
  unfold unlockSeat_fields, lock_at, seats_of, expired, inherited_slot. unfold_js.
  rewrite He. simpl. destruct (t !! ek) as [seats|] eqn:Ht; simpl; [|done].
  rewrite Hs. simpl. unfold slot_of.
  destruct (seats !! sk) as [lock|] eqn:Hl; simpl.
  - destruct (falsy u || strict_eq (userId lock) u
              || (now - timestamp lock >? LOCK_EXPIRY_TIME)); simpl; [|done].
    by rewrite Ht.
  - destruct (inherited sk); simpl; [|done]. rewrite falsy_or_undefined.
    destruct (falsy u); simpl; [|done]. rewrite Ht.
    by rewrite (delete_id _ _ Hl), (insert_id _ _ _ Ht).
Qed.

(** C6, as the code has it. [unlockSeat] with a payload, in a state
    reached through plain requests, on an event and a seat whose ids do
    not name inherited members: without a lock for the seat it changes
    and emits nothing; with a lock, when the claimant of the request is
    the holder and is a string, a number or a boolean, or the lock has
    expired at [now], or the request carries no claimant (a falsy
    [userId]), the lock is removed and [seatUnlocked {seatIndex}] is
    broadcast to the room ["event-" + eventId]; with a lock that is
    active and held by another claimant than the non-empty one of the
    request, nothing is removed and nothing is emitted, and the same
    holds when the non-empty claimant of the request is an array or an
    object, whoever holds the lock. *)
Theorem unlockSeat_cases t now p e s u ek sk :
  carries p e s u → plain_state t →
  to_key e = Some ek → inherited ek = false →
  to_key s = Some sk → inherited sk = false →
  (lock_at t ek sk = None → run (unlockSeat now p) t = (Normal tt, t, [])) ∧
  (∀ lock, lock_at t ek sk = Some lock →
     (userId lock = u ∧ is_reference u = false)
       ∨ now - timestamp lock > LOCK_EXPIRY_TIME ∨ falsy u = true →
     let t' := <[ek := delete sk (seats_of t ek)]> t in
     run (unlockSeat now p) t
     = (Normal tt, t', [BroadcastSeatUnlocked ("event-" +:+ ek) s]) ∧
     lock_at t' ek sk = None ∧
     (∀ ek' sk', ¬ (ek = ek' ∧ sk = sk') → lock_at t' ek' sk' = lock_at t ek' sk')) ∧
  (∀ lock, lock_at t ek sk = Some lock →
     active now lock → falsy u = false →
     userId lock ≠ u ∨ is_reference u = true →
     run (unlockSeat now p) t = (Normal tt, t, [])).
Proof.
  intros Hp _ He _ Hs Hsk.
  rewrite (unlockSeat_carries _ _ _ _ _ _ Hp).
  rewrite (unlockSeat_fields_keys _ _ _ _ _ ek sk He Hs).
  split; [|split].
  - intros Hnone. rewrite Hnone.
    assert (inherited_slot t ek sk = false) as ->; [|done].
    unfold inherited_slot. destruct (t !! ek) as [seats|]; [|done].
    by destruct (seats !! sk).
  - intros lock -> Hcase t'. split; [|split].
    + assert (falsy u || strict_eq (userId lock) u || expired now lock = true) as ->;
        [|done].
      destruct Hcase as [[-> Hprim] | [Hexp | ->]]; [| |done].
      * by rewrite (primitive_strict_eq u Hprim), Bool.orb_true_r.
      * apply expired_true in Hexp. by rewrite Hexp, Bool.orb_true_r.
    + unfold t'. rewrite lock_at_delete. by rewrite decide_True.
    + intros ek' sk' Hne. unfold t'. rewrite lock_at_delete. by rewrite decide_False.
  - intros lock -> Ha Hu Hne. apply expired_false in Ha.
    assert (strict_eq (userId lock) u = false) as ->; [|by rewrite Hu, Ha].
    destruct Hne as [Hne | Href]; [by apply strict_eq_ne|].
    destruct (userId lock), u; done.
Qed.

Lemma unlockSeat_cases_witness :
  run (unlockSeat 90000 (request (JStr "E1") (JNum 3) (JStr "B")))
      {[ "E1" := {[ "3" := mkLock (JStr "A") 0 ]} ]}
  = (Normal tt, {[ "E1" := {[ "3" := mkLock (JStr "A") 0 ]} ]}, []) ∧
  run (unlockSeat 90000 (request (JStr "E1") (JNum 3) (JStr "A")))
      {[ "E1" := {[ "3" := mkLock (JStr "A") 0 ]} ]}
  = (Normal tt,
     <[ "E1" := delete "3" (seats_of {[ "E1" := {[ "3" := mkLock (JStr "A") 0 ]} ]} "E1") ]>
       {[ "E1" := {[ "3" := mkLock (JStr "A") 0 ]} ]},
     [BroadcastSeatUnlocked ("event-" +:+ "E1") (JNum 3)]).
Proof.
  split.
  - apply (unlockSeat_cases _ 90000 _ (JStr "E1") (JNum 3) (JStr "B") "E1" "3"
             (carries_request _ _ _) plain_state_one_lock eq_refl eq_refl eq_refl eq_refl)
      with (lock := mkLock (JStr "A") 0).
    + vm_compute. reflexivity.
    + unfold active, LOCK_EXPIRY_TIME. simpl. lia.
    + reflexivity.
    + left. discriminate.
  - apply (unlockSeat_cases _ 90000 _ (JStr "E1") (JNum 3) (JStr "A") "E1" "3"
             (carries_request _ _ _) plain_state_one_lock eq_refl eq_refl eq_refl eq_refl)
      with (lock := mkLock (JStr "A") 0).
    + vm_compute. reflexivity.
    + left. split; reflexivity.
Defined.

(** C6 as stated fails for a claimant given as an object: the holder
    [{"id": 1}] of an active lock, releasing it with the payload that
    took it, removes nothing and nothing is broadcast ([===] compares
    the stored object with the new one by reference). *)
Lemma unlockSeat_object_claimant_not_released :
  let p := request (JStr "E1") (JNum 3) (JObj [("id", JNum 1)]) in
  let t1 := (run (lockSeat 0 p) ∅).1.2 in
  lock_at t1 "E1" "3" = Some (mkLock (JObj [("id", JNum 1)]) 0) ∧
  get_field p "userId" = JObj [("id", JNum 1)] ∧
  run (unlockSeat 1000 p) t1 = (Normal tt, t1, []) ∧
  lock_at (run (unlockSeat 1000 p) t1).1.2 "E1" "3"
  = Some (mkLock (JObj [("id", JNum 1)]) 0).
Proof. repeat split; vm_compute; reflexivity. Qed.

(** X25. [unlockSeat] finds the members that an event object inherits:
    in a state reached through plain requests, when the event has an
    entry, the seat has no lock, its id names a member of
    [Object.prototype] (["constructor"], ["toString"], ...) and the
    request carries no claimant, the handler broadcasts
    [seatUnlocked {seatIndex}] to the room of the event although there
    is no lock to release; the table is unchanged. With a non-empty
    claimant the same call does nothing. *)
Theorem unlockSeat_inherited_member t now p e s u ek sk :
  carries p e s u → plain_state t →
  to_key e = Some ek → is_Some (t !! ek) →
  to_key s = Some sk → inherited sk = true → lock_at t ek sk = None →
  run (unlockSeat now p) t
  = (Normal tt, t,
     if falsy u then [BroadcastSeatUnlocked ("event-" +:+ ek) s] else []).
Proof.
  intros Hp _ He [seats Ht] Hs Hinh Hnone.
  rewrite (unlockSeat_carries _ _ _ _ _ _ Hp).
  rewrite (unlockSeat_fields_keys _ _ _ _ _ ek sk He Hs), Hnone.
  assert (inherited_slot t ek sk = true) as ->; [|by destruct (falsy u)].
  unfold inherited_slot, lock_at in *. rewrite Ht in *. simpl in Hnone.
  by rewrite Hnone.
Qed.

Lemma unlockSeat_inherited_member_witness :
  run (unlockSeat 1000 (request (JStr "E1") (JStr "constructor") JUndefined))
      {[ "E1" := {[ "3" := mkLock (JStr "A") 0 ]} ]}
  = (Normal tt, {[ "E1" := {[ "3" := mkLock (JStr "A") 0 ]} ]},
     if falsy JUndefined
     then [BroadcastSeatUnlocked ("event-" +:+ "E1") (JStr "constructor")] else []).
Proof.
  apply (unlockSeat_inherited_member _ 1000 _ (JStr "E1") (JStr "constructor")
           JUndefined "E1" "constructor" (carries_request _ _ _) plain_state_one_lock).
  - reflexivity.
  - vm_compute. eexists. reflexivity.
  - reflexivity.
  - reflexivity.
  - vm_compute. reflexivity.
Defined.

(** ** [joinEvent] *)

Lemma snapshot_lookup now seats sk :
  snapshot now seats !! sk
  = match seats !! sk with
    | Some lock => if expired now lock then None else Some (userId lock)
    | None => None
    end.
Proof.
  unfold snapshot. rewrite lookup_omap. destruct (seats !! sk) as [lock|]; [|done].
  simpl. rewrite expired_leb. by destruct (now - timestamp lock <=? LOCK_EXPIRY_TIME).
Qed.

Lemma collect_active_step now seats acc k lock :
  seats !! k = Some lock →
  collect_active now seats (Some acc) k
  = Some (if expired now lock then acc else <[k := userId lock]> acc).
Proof.
  intros Hl. unfold collect_active, slot_of. rewrite Hl, expired_leb.
  by destruct (now - timestamp lock <=? LOCK_EXPIRY_TIME).
Qed.

(** The loop over the keys [ks] of [seats], started on an accumulator
    that has none of them. *)
Lemma collect_active_loop now seats ks :
  ∀ acc, NoDup ks → (∀ k, k ∈ ks → is_Some (seats !! k) ∧ acc !! k = None) →
  ∃ acc', foldl (collect_active now seats) (Some acc) ks = Some acc' ∧
          ∀ sk, acc' !! sk = if decide (sk ∈ ks) then snapshot now seats !! sk
                             else acc !! sk.
Proof.
  induction ks as [|k ks IH]; intros acc Hnd Hks.
  - exists acc. split; [done|]. intros sk. rewrite decide_False; [done|].
    by intros ?%elem_of_nil.
  - apply NoDup_cons in Hnd as [Hk Hnd].
    destruct (Hks k) as [[lock Hlock] Hacc]; [by left|].
    cbn [foldl]. rewrite (collect_active_step _ _ _ _ _ Hlock).
    set (acc1 := if expired now lock then acc else <[k := userId lock]> acc).
    destruct (IH acc1 Hnd) as (acc' & Hfold & Hlook).
    { intros k' Hk'. destruct (Hks k') as [? ?]; [by right|]. split; [done|].
      unfold acc1. destruct (expired now lock); [done|].
      rewrite lookup_insert_ne; [done|]. by intros ->. }
    exists acc'. split; [done|]. intros sk. rewrite Hlook.
    destruct (decide (sk = k)) as [->|Hne].
    + rewrite decide_False by done. rewrite decide_True by by left.
      rewrite snapshot_lookup, Hlock. unfold acc1.
      destruct (expired now lock); [done|]. by rewrite lookup_insert_eq.
    + assert (acc1 !! sk = acc !! sk) as Hsame.
      { unfold acc1. destruct (expired now lock); [done|].
        by rewrite lookup_insert_ne. }
      destruct (decide (sk ∈ ks)) as [Hin|Hin].
      * rewrite decide_True; [done|by right].
      * rewrite decide_False; [done|]. by intros [?|?]%elem_of_cons.
Qed.

Lemma elem_of_object_keys {V} (m : gmap string V) k :
  k ∈ object_keys m ↔ is_Some (m !! k).
Proof.
  unfold object_keys. rewrite list_elem_of_fmap. split.
  - intros ([k' v] & -> & Hin). apply elem_of_map_to_list in Hin. by exists v.
  - intros [v Hv]. exists (k, v). split; [done|]. by apply elem_of_map_to_list.
Qed.

Lemma NoDup_object_keys {V} (m : gmap string V) : NoDup (object_keys m).
Proof. apply NoDup_fst_map_to_list. Qed.

(** The loop of [joinEvent] completes, with the snapshot of the event. *)
Lemma active_locks_snapshot now seats :
  active_locks now seats = Some (snapshot now seats).
Proof.
  unfold active_locks.
  destruct (collect_active_loop now seats (object_keys seats) ∅) as (acc & -> & Hlook).
  - apply NoDup_object_keys.
  - intros k Hk. split; [by apply elem_of_object_keys|apply lookup_empty].
  - f_equal. apply map_eq. intros sk. rewrite Hlook.
    destruct (decide (sk ∈ object_keys seats)) as [|Hin]; [done|].
    rewrite lookup_empty, snapshot_lookup.
    destruct (seats !! sk) eqn:Hs; [|done].
    exfalso. apply Hin, elem_of_object_keys. by rewrite Hs.
Qed.

Lemma joinEvent_run t now e :
  run (joinEvent now e) t
  = (Normal tt, t,
     match to_string e with
     | Some ek => [SocketJoin (room_of ek); EmitLockedSeats (snapshot now (seats_of t ek))]
     | None => [ConsoleError "joinEvent Error:"]
     end).
Proof.
  unfold joinEvent, seats_of. unfold_js. destruct (to_string e) as [ek|]; simpl; [|done].
  destruct (t !! ek) as [seats|]; simpl.
  - by rewrite active_locks_snapshot.
  - unfold snapshot. by rewrite omap_empty.
Qed.

(** ** The expiry timer *)

Lemma keep_active_lookup now seats sk :
  keep_active now seats !! sk
  = match seats !! sk with
    | Some lock => if expired now lock then None else Some lock
    | None => None
    end.
Proof.
  unfold keep_active. rewrite map_lookup_filter.
  destruct (seats !! sk) as [lock|]; [|done]. simpl.
  destruct (expired now lock); [by rewrite option_guard_False|by rewrite option_guard_True].
Qed.

Lemma filter_ext_elem {A} (P Q : A → Prop)
    `{!∀ x, Decision (P x), !∀ x, Decision (Q x)} (l : list A) :
  (∀ x, x ∈ l → P x ↔ Q x) → filter P l = filter Q l.
Proof.
  induction l as [|a l IH]; intros Hiff; [done|].
  assert (filter P l = filter Q l) as Hrest.
  { apply IH. intros x Hx. apply Hiff. by right. }
  destruct (decide (P a)) as [Ha|Ha].
  - rewrite !filter_cons_True; [by rewrite Hrest| |done]. apply Hiff; [by left|done].
  - rewrite !filter_cons_False; [done| |done]. intros HQ. apply Ha, Hiff; [by left|done].
Qed.

(** One iteration of the inner loop, on a seat that is listed. *)
Lemma sweep_seat_run now ek sk w seats lock :
  lockedSeats w !! ek = Some seats → seats !! sk = Some lock →
  sweep_seat now ek sk w
  = (Normal tt,
     if expired now lock then
       mkWorld (<[ek := delete sk seats]> (lockedSeats w))
               (emitted w ++ [seat_unlocked ek sk])
     else w).
Proof.
  intros Ht Hl. unfold sweep_seat, expired. unfold_js. rewrite Ht. simpl.
  unfold slot_of. rewrite Hl.
  destruct (now - timestamp lock >? LOCK_EXPIRY_TIME); simpl; [|done]. by rewrite Ht.
Qed.

(** The inner loop over seats [ks] of the event [ek]. *)
Lemma sweep_seats_loop now ek ks :
  ∀ w seats,
    lockedSeats w !! ek = Some seats → NoDup ks →
    (∀ k, k ∈ ks → is_Some (seats !! k)) →
    ∃ seats',
      for_each ks (sweep_seat now ek) w
      = (Normal tt,
         mkWorld (<[ek := seats']> (lockedSeats w))
                 (emitted w ++
                  (seat_unlocked ek
                   <$> filter (λ sk, expired now <$> seats !! sk = Some true) ks))) ∧
      ∀ sk, seats' !! sk = if decide (sk ∈ ks) then keep_active now seats !! sk
                           else seats !! sk.
Proof.
  induction ks as [|k ks IH]; intros w seats Ht Hnd Hks.
  - exists seats. split.
    + simpl. unfold ret. rewrite (insert_id _ _ _ Ht), app_nil_r. by destruct w.
    + intros sk. rewrite decide_False; [done|]. by intros ?%elem_of_nil.
  - apply NoDup_cons in Hnd as [Hk Hnd].
    destruct (Hks k) as [lock Hlock]; [by left|].
    cbn [for_each]. unfold bind at 1.
    rewrite (sweep_seat_run _ _ _ _ _ _ Ht Hlock).
    destruct (expired now lock) eqn:Hexp.
    + destruct (IH (mkWorld (<[ek := delete k seats]> (lockedSeats w))
                            (emitted w ++ [seat_unlocked ek k]))
                   (delete k seats)) as (seats' & Hrun & Hlook).
      { simpl. apply lookup_insert_eq. }
      { done. }
      { intros k' Hk'. rewrite lookup_delete_ne; [apply Hks; by right|]. by intros ->. }
      exists seats'. split.
      * rewrite Hrun. simpl. rewrite insert_insert_eq.
        rewrite filter_cons_True by by rewrite Hlock; simpl; rewrite Hexp.
        rewrite fmap_cons, <- app_assoc. simpl.
        rewrite (filter_ext_elem
                   (λ sk, expired now <$> delete k seats !! sk = Some true)
                   (λ sk, expired now <$> seats !! sk = Some true) ks); [done|].
        intros sk Hsk. rewrite lookup_delete_ne; [done|]. by intros ->.
      * intros sk. rewrite Hlook. rewrite !keep_active_lookup.
        destruct (decide (sk = k)) as [->|Hne].
        -- rewrite decide_False by done. rewrite decide_True by by left.
           by rewrite lookup_delete_eq, Hlock, Hexp.
        -- rewrite lookup_delete_ne by done.
           destruct (decide (sk ∈ ks)) as [Hin|Hin].
           ++ rewrite decide_True; [done|by right].
           ++ rewrite decide_False; [done|]. by intros [?|?]%elem_of_cons.
    + destruct (IH w seats Ht Hnd) as (seats' & Hrun & Hlook).
      { intros k' Hk'. apply Hks. by right. }
      exists seats'. split.
      * rewrite Hrun.
        rewrite (filter_cons_False _ k); [done|]. rewrite Hlock. simpl. rewrite Hexp.
        by intros [=].
      * intros sk. rewrite Hlook.
        destruct (decide (sk = k)) as [->|Hne].
        -- rewrite decide_False by done. rewrite decide_True by by left.
           by rewrite keep_active_lookup, Hlock, Hexp.
        -- destruct (decide (sk ∈ ks)) as [Hin|Hin].
           ++ rewrite decide_True; [done|by right].
           ++ rewrite decide_False; [done|]. by intros [?|?]%elem_of_cons.
Qed.

(** One iteration of the outer loop, on an event that is listed. *)
Lemma sweep_event_run now ek w seats :
  lockedSeats w !! ek = Some seats →
  sweep_event now ek w
  = (Normal tt,
     mkWorld (<[ek := keep_active now seats]> (lockedSeats w))
             (emitted w ++ (seat_unlocked ek <$> expired_keys now seats))).
Proof.
  intros Ht. unfold sweep_event, event_seats, read_table. unfold bind at 1 2.
  unfold ret at 1. rewrite Ht.
  destruct (sweep_seats_loop now ek (object_keys seats) w seats Ht)
    as (seats' & -> & Hlook).
  - apply NoDup_object_keys.
  - intros k Hk. by apply elem_of_object_keys.
  - unfold expired_keys. do 3 f_equal. apply map_eq. intros sk. rewrite Hlook.
    destruct (decide (sk ∈ object_keys seats)) as [|Hin]; [done|].
    rewrite keep_active_lookup. destruct (seats !! sk) eqn:Hs; [|done].
    exfalso. apply Hin, elem_of_object_keys. by rewrite Hs.
Qed.

(** The outer loop over the events [eks]. *)
Lemma sweep_events_loop now eks :
  ∀ w,
    NoDup eks → (∀ ek, ek ∈ eks → is_Some (lockedSeats w !! ek)) →
    ∃ t',
      for_each eks (sweep_event now) w
      = (Normal tt,
         mkWorld t'
           (emitted w ++
            (eks ≫= λ ek, seat_unlocked ek
                          <$> expired_keys now (seats_of (lockedSeats w) ek)))) ∧
      ∀ ek, t' !! ek = if decide (ek ∈ eks) then keep_active now <$> lockedSeats w !! ek
                       else lockedSeats w !! ek.
Proof.
  induction eks as [|ek eks IH]; intros w Hnd Heks.
  - exists (lockedSeats w). split.
    + simpl. unfold ret. rewrite app_nil_r. by destruct w.
    + intros ek. rewrite decide_False; [done|]. by intros ?%elem_of_nil.
  - apply NoDup_cons in Hnd as [Hek Hnd].
    destruct (Heks ek) as [seats Hseats]; [by left|].
    cbn [for_each]. unfold bind at 1. rewrite (sweep_event_run _ _ _ _ Hseats).
    destruct (IH (mkWorld (<[ek := keep_active now seats]> (lockedSeats w))
                          (emitted w ++ (seat_unlocked ek <$> expired_keys now seats))))
      as (t' & Hrun & Hlook); [done| |].
    { intros ek' Hek'. simpl. rewrite lookup_insert_ne; [apply Heks; by right|].
      by intros ->. }
    exists t'. split.
    + rewrite Hrun. simpl. rewrite <- app_assoc. do 3 f_equal.
      unfold seats_of at 2. rewrite Hseats. simpl. f_equal.
      apply Forall_bind_ext, Forall_forall. intros ek' Hek'.
      unfold seats_of. rewrite lookup_insert_ne; [done|]. by intros ->.
    + intros ek'. rewrite Hlook. simpl.
      destruct (decide (ek' = ek)) as [->|Hne].
      * rewrite decide_False by done. rewrite decide_True by by left.
        by rewrite lookup_insert_eq, Hseats.
      * rewrite lookup_insert_ne by done.
        destruct (decide (ek' ∈ eks)) as [Hin|Hin].
        -- rewrite decide_True; [done|by right].
        -- rewrite decide_False; [done|]. by intros [?|?]%elem_of_cons.
Qed.

(** A timer tick completes: it keeps the active locks of every event and
    broadcasts the expired seats. *)
Lemma sweep_tick_run now t :
  run (sweep_tick now) t = (Normal tt, keep_active now <$> t, sweep_broadcasts now t).
Proof.
  unfold run, sweep_tick, read_table. unfold bind at 1. simpl.
  destruct (sweep_events_loop now (object_keys t) (mkWorld t [])) as (t' & -> & Hlook).
  - apply NoDup_object_keys.
  - intros ek Hek. by apply elem_of_object_keys.
  - simpl. unfold sweep_broadcasts. do 2 f_equal. apply map_eq. intros ek.
    rewrite Hlook, lookup_fmap. simpl.
    destruct (decide (ek ∈ object_keys t)) as [|Hin]; [done|].
    destruct (t !! ek) eqn:Hs; [|done].
    exfalso. apply Hin, elem_of_object_keys. by rewrite Hs.
Qed.

Lemma lock_at_keep_active now t ek sk :
  lock_at (keep_active now <$> t) ek sk
  = match lock_at t ek sk with
    | Some lock => if expired now lock then None else Some lock
    | None => None
    end.
Proof.
  unfold lock_at. rewrite lookup_fmap. destruct (t !! ek) as [seats|]; [|done].
  simpl. apply keep_active_lookup.
Qed.

Lemma elem_of_expired_keys now seats sk :
  sk ∈ expired_keys now seats ↔ ∃ lock, seats !! sk = Some lock ∧ expired now lock = true.
Proof.
  unfold expired_keys. rewrite list_elem_of_filter, elem_of_object_keys. split.
  - intros [Hexp [lock Hl]]. exists lock. rewrite Hl in Hexp. simpl in Hexp.
    split; [done|congruence].
  - intros (lock & Hl & Hexp). rewrite Hl. simpl. rewrite Hexp. by eauto.
Qed.

Lemma elem_of_sweep_broadcasts now t x :
  x ∈ sweep_broadcasts now t ↔
  ∃ ek sk lock, x = seat_unlocked ek sk ∧ lock_at t ek sk = Some lock
                ∧ expired now lock = true.
Proof.
  unfold sweep_broadcasts. rewrite list_elem_of_bind. split.
  - intros (ek & Hx & Hek). apply list_elem_of_fmap in Hx as (sk & -> & Hsk).
    apply elem_of_expired_keys in Hsk as (lock & Hl & Hexp).
    apply elem_of_object_keys in Hek as [seats Hseats].
    exists ek, sk, lock. split; [done|]. split; [|done].
    unfold lock_at. rewrite Hseats. simpl. unfold seats_of in Hl. by rewrite Hseats in Hl.
  - intros (ek & sk & lock & -> & Hl & Hexp). exists ek.
    unfold lock_at in Hl. destruct (t !! ek) as [seats|] eqn:Hseats; [|done].
    simpl in Hl. split.
    + apply list_elem_of_fmap. exists sk. split; [done|].
      apply elem_of_expired_keys. exists lock. unfold seats_of. by rewrite Hseats.
    + apply elem_of_object_keys. by rewrite Hseats.
Qed.

Lemma seat_unlocked_inj ek sk ek' sk' :
  seat_unlocked ek sk = seat_unlocked ek' sk' → ek = ek' ∧ sk = sk'.
Proof.
  unfold seat_unlocked. intros H. split.
  - apply room_of_inj. congruence.
  - congruence.
Qed.

Lemma NoDup_sweep_broadcasts now t : NoDup (sweep_broadcasts now t).
Proof.
  unfold sweep_broadcasts. apply NoDup_bind.
  - intros ek1 ek2 x _ _ H1 H2.
    apply list_elem_of_fmap in H1 as (sk1 & -> & _).
    apply list_elem_of_fmap in H2 as (sk2 & Heq & _).
    by apply seat_unlocked_inj in Heq as [? _].
  - intros ek _. apply NoDup_fmap_2_strong.
    + intros sk1 sk2 _ _ Heq. by apply seat_unlocked_inj in Heq as [_ ?].
    + unfold expired_keys. apply NoDup_filter, NoDup_object_keys.
  - apply NoDup_object_keys.
Qed.

(** X23. In a state reached through plain requests, a timer tick at time
    [S] completes; in the table it leaves, every lock with
    [S - timestamp > LOCK_EXPIRY_TIME] is gone and every lock with
    [S - timestamp <= LOCK_EXPIRY_TIME] is as it was (and no lock
    appears); it emits one [seatUnlocked {seatIndex}] per removed seat,
    to the room ["event-" + eventId] of the seat's event, with the key
    of the seat as [seatIndex], and nothing else: the emitted list has
    no repetition, and its elements are the broadcasts of the expired
    seats. *)
Theorem sweep_tick_evicts_expired t S :
  plain_state t →
  ∃ t' out,
    run (sweep_tick S) t = (Normal tt, t', out) ∧
    (∀ ek sk lock, lock_at t ek sk = Some lock →
       S - timestamp lock > LOCK_EXPIRY_TIME → lock_at t' ek sk = None) ∧
    (∀ ek sk lock, lock_at t ek sk = Some lock →
       S - timestamp lock ≤ LOCK_EXPIRY_TIME → lock_at t' ek sk = Some lock) ∧
    (∀ ek sk, lock_at t ek sk = None → lock_at t' ek sk = None) ∧
    NoDup out ∧
    (∀ x, x ∈ out ↔
          ∃ ek sk lock, x = BroadcastSeatUnlocked ("event-" +:+ ek) (JStr sk) ∧
                        lock_at t ek sk = Some lock ∧
                        S - timestamp lock > LOCK_EXPIRY_TIME).
Proof.
  intros _. exists (keep_active S <$> t), (sweep_broadcasts S t).
  split; [apply sweep_tick_run|]. repeat split.
  - intros ek sk lock Hl Hexp. apply expired_true in Hexp.
    by rewrite lock_at_keep_active, Hl, Hexp.
  - intros ek sk lock Hl Hact. apply expired_false in Hact.
    by rewrite lock_at_keep_active, Hl, Hact.
  - intros ek sk Hl. by rewrite lock_at_keep_active, Hl.
  - apply NoDup_sweep_broadcasts.
  - intros (ek & sk & lock & -> & Hl & Hexp)%elem_of_sweep_broadcasts.
    exists ek, sk, lock. by rewrite <- expired_true.
  - intros (ek & sk & lock & -> & Hl & Hexp). apply elem_of_sweep_broadcasts.
    exists ek, sk, lock. by rewrite expired_true.
Qed.

Lemma sweep_tick_evicts_expired_witness :
  ∃ t' out,
    run (sweep_tick 400000) {[ "E1" := {[ "3" := mkLock (JStr "A") 0 ]} ]}
    = (Normal tt, t', out) ∧
    (∀ ek sk lock,
       lock_at {[ "E1" := {[ "3" := mkLock (JStr "A") 0 ]} ]} ek sk = Some lock →
       400000 - timestamp lock > LOCK_EXPIRY_TIME → lock_at t' ek sk = None) ∧
    (∀ ek sk lock,
       lock_at {[ "E1" := {[ "3" := mkLock (JStr "A") 0 ]} ]} ek sk = Some lock →
       400000 - timestamp lock ≤ LOCK_EXPIRY_TIME → lock_at t' ek sk = Some lock) ∧
    (∀ ek sk, lock_at {[ "E1" := {[ "3" := mkLock (JStr "A") 0 ]} ]} ek sk = None →
              lock_at t' ek sk = None) ∧
    NoDup out ∧
    (∀ x, x ∈ out ↔
          ∃ ek sk lock, x = BroadcastSeatUnlocked ("event-" +:+ ek) (JStr sk) ∧
                        lock_at {[ "E1" := {[ "3" := mkLock (JStr "A") 0 ]} ]} ek sk
                        = Some lock ∧
                        400000 - timestamp lock > LOCK_EXPIRY_TIME).
Proof.
  apply (sweep_tick_evicts_expired {[ "E1" := {[ "3" := mkLock (JStr "A") 0 ]} ]} 400000).
  apply plain_state_one_lock.
Defined.

(** C8, as the code has it. [joinEvent] never completes abruptly and never
    changes the lock table. In a state reached through plain requests,
    the one fault of the processing is an [eventId] without string
    conversion: the handler then records the diagnostic "joinEvent
    Error:" and emits nothing to the joining connection; otherwise it
    joins the room ["event-" + eventId] and emits one [lockedSeats] with
    the snapshot of the event. *)
Theorem joinEvent_contains_faults t now e :
  ∃ out,
    run (joinEvent now e) t = (Normal tt, t, out) ∧
    (plain_state t →
     match to_string e with
     | None => out = [ConsoleError "joinEvent Error:"]
     | Some ek =>
         out = [SocketJoin ("event-" +:+ ek);
                EmitLockedSeats (snapshot now (seats_of t ek))]
     end).
Proof.
  rewrite joinEvent_run. eexists. split; [reflexivity|].
  intros _. by destruct (to_string e).
Qed.

(** C8 as stated fails on a fault: a [joinEvent] whose [eventId] is the
    object [{"toString": 1}] faults in the template literal, and the
    handler then only logs: no [lockedSeats], empty or not, is emitted. *)
Lemma joinEvent_fault_emits_no_mapping :
  to_string (JObj [("toString", JNum 1)]) = None ∧
  run (joinEvent 0 (JObj [("toString", JNum 1)])) ∅
  = (Normal tt, ∅, [ConsoleError "joinEvent Error:"]) ∧
  ∀ m, EmitLockedSeats m ∉ (run (joinEvent 0 (JObj [("toString", JNum 1)])) ∅).2.
Proof.
  split; [reflexivity|]. split; [reflexivity|].
  intros m Hin. rewrite joinEvent_run in Hin. simpl in Hin.
  apply list_elem_of_singleton in Hin. discriminate Hin.
Qed.

(** C9. Whatever the [eventId] and the lock table, [joinEvent] leaves the
    lock table exactly as it was: no lock is created, removed or
    modified, expired entries included. *)
Theorem joinEvent_preserves_table t now e :
  (run (joinEvent now e) t).1.2 = t.
Proof. by rewrite joinEvent_run. Qed.

Lemma seats_of_lookup t ek sk : seats_of t ek !! sk = lock_at t ek sk.
Proof. unfold seats_of, lock_at. destruct (t !! ek); [done|apply lookup_empty]. Qed.

(** Timer ticks run up to [T + Δ] keep a lock of timestamp [T], or
    remove it when [Δ > LOCK_EXPIRY_TIME]. *)
Lemma after_ticks_lock ticks ek sk lock Δ :
  ∀ t,
    lock_at t ek sk = Some lock ∨ (lock_at t ek sk = None ∧ Δ > LOCK_EXPIRY_TIME) →
    Forall (λ S, S ≤ timestamp lock + Δ) ticks →
    lock_at (after_ticks ticks t) ek sk = Some lock ∨
    (lock_at (after_ticks ticks t) ek sk = None ∧ Δ > LOCK_EXPIRY_TIME).
Proof.
  induction ticks as [|S ticks IH]; intros t Ht Hticks; [done|].
  apply Forall_cons in Hticks as [HS Hticks].
  unfold after_ticks. cbn [foldl]. apply IH; [|done].
  rewrite sweep_tick_run. simpl. rewrite lock_at_keep_active.
  destruct Ht as [-> | [-> Hgt]]; [|by right].
  destruct (expired S lock) eqn:Hexp; [right|by left].
  split; [done|]. apply expired_true in Hexp. lia.
Qed.

(** X21. In a state reached through plain requests, for a lock of the
    table whose timestamp is [T] (the time it was acquired or last
    renewed), the snapshot that [joinEvent] emits at
    time [T + Δ] maps the seat to the holder of the lock when
    [Δ <= LOCK_EXPIRY_TIME] (the boundary included) and has no entry for
    the seat when [Δ > LOCK_EXPIRY_TIME]; this holds whether or not timer
    ticks have run in between (any number of them, at times up to
    [T + Δ]), that is whether or not the entry is still in the table. *)
Theorem joinEvent_snapshot_ttl t e ek sk lock Δ ticks :
  plain_state t →
  to_string e = Some ek → lock_at t ek sk = Some lock →
  Forall (λ S, S ≤ timestamp lock + Δ) ticks →
  let t' := after_ticks ticks t in
  ∃ snap,
    run (joinEvent (timestamp lock + Δ) e) t'
    = (Normal tt, t', [SocketJoin ("event-" +:+ ek); EmitLockedSeats snap]) ∧
    (Δ ≤ LOCK_EXPIRY_TIME → snap !! sk = Some (userId lock)) ∧
    (Δ > LOCK_EXPIRY_TIME → snap !! sk = None).
Proof.
  intros _ He Hl Hticks t'. exists (snapshot (timestamp lock + Δ) (seats_of t' ek)).
  split; [by rewrite joinEvent_run, He|].
  rewrite snapshot_lookup, seats_of_lookup.
  destruct (after_ticks_lock ticks ek sk lock Δ t (or_introl Hl) Hticks)
    as [Hkept | [Hgone Hgt]]; fold t' in Hkept || fold t' in Hgone.
  - rewrite Hkept. split; intros HΔ.
    + assert (expired (timestamp lock + Δ) lock = false) as ->; [|done].
      apply expired_false. unfold active. lia.
    + assert (expired (timestamp lock + Δ) lock = true) as ->; [|done].
      apply expired_true. lia.
  - rewrite Hgone. split; [lia|done].
Qed.

Lemma joinEvent_snapshot_ttl_witness :
  ∃ snap,
    run (joinEvent (timestamp (mkLock (JStr "A") 0) + 301000) (JStr "E1"))
        (after_ticks [240000] {[ "E1" := {[ "7" := mkLock (JStr "A") 0 ]} ]})
    = (Normal tt, after_ticks [240000] {[ "E1" := {[ "7" := mkLock (JStr "A") 0 ]} ]},
       [SocketJoin ("event-" +:+ "E1"); EmitLockedSeats snap]) ∧
    (301000 ≤ LOCK_EXPIRY_TIME → snap !! "7" = Some (userId (mkLock (JStr "A") 0))) ∧
    (301000 > LOCK_EXPIRY_TIME → snap !! "7" = None).
Proof.
  apply (joinEvent_snapshot_ttl {[ "E1" := {[ "7" := mkLock (JStr "A") 0 ]} ]}
           (JStr "E1") "E1" "7" (mkLock (JStr "A") 0) 301000 [240000]).
  - exists [(0, LockSeat (request (JStr "E1") (JNum 7) (JStr "A")))].
    split; [repeat constructor|vm_compute; reflexivity].
  - reflexivity.
  - vm_compute. reflexivity.
  - repeat constructor. simpl. lia.
Defined.

(** ** The scenarios of the specification *)

(** A locks seat 3 of E1 at 0; B is refused at 60 s; A releases at 90 s;
    B is granted at 91 s. *)
Example scenario_contention :
  let a := request (JStr "E1") (JNum 3) (JStr "A") in
  let b := request (JStr "E1") (JNum 3) (JStr "B") in
  let held := {[ "E1" := {[ "3" := mkLock (JStr "A") 0 ]} ]} in
  run (lockSeat 0 a) ∅
  = (Normal tt, held, [BroadcastSeatLocked "event-E1" (JNum 3) (JStr "A")]) ∧
  run (lockSeat 60000 b) held
  = (Normal tt, held, [EmitSeatLockFailed (JNum 3) "Seat already locked"]) ∧
  run (unlockSeat 90000 a) held
  = (Normal tt, {[ "E1" := ∅ ]}, [BroadcastSeatUnlocked "event-E1" (JNum 3)]) ∧
  run (lockSeat 91000 b) {[ "E1" := ∅ ]}
  = (Normal tt, {[ "E1" := {[ "3" := mkLock (JStr "B") 91000 ]} ]},
     [BroadcastSeatLocked "event-E1" (JNum 3) (JStr "B")]).
Proof. repeat split; vm_compute; reflexivity. Qed.

(** A locks seat 7 at 0 and never renews; a connection that joins at
    301 s receives a snapshot without seat 7, before any timer tick. *)
Example scenario_late_join :
  run (joinEvent 301000 (JStr "E1")) {[ "E1" := {[ "7" := mkLock (JStr "A") 0 ]} ]}
  = (Normal tt, {[ "E1" := {[ "7" := mkLock (JStr "A") 0 ]} ]},
     [SocketJoin "event-E1"; EmitLockedSeats ∅]).
Proof. vm_compute. reflexivity. Qed.

(** A payload that is [undefined] or [null] fails in the parameter
    pattern, before the [try]: the exception leaves the handler. *)
Example lockSeat_without_payload :
  run (lockSeat 0 JUndefined) ∅ = (Throw, ∅, []).
Proof. reflexivity. Qed.

(** * Beyond the claims: faults, frames and runs of callbacks *)

(** ** Faults in [lockSeat] and [unlockSeat] *)

Lemma lock_at_with_event ek t ek' sk' :
  lock_at (with_event ek t) ek' sk' = lock_at t ek' sk'.
Proof.
  unfold with_event, lock_at. destruct (t !! ek) eqn:Ht; [done|].
  destruct (decide (ek = ek')) as [<-|Hne].
  - by rewrite lookup_insert_eq, Ht.
  - by rewrite lookup_insert_ne.
Qed.

(** [lockSeat] on a request that passes the guard but whose [eventId]
    has no key conversion. *)
Lemma lockSeat_fields_bad_event t now e s u :
  valid_request e s u = true → to_key e = None →
  run (lockSeat_fields now e s u) t
  = (Normal tt, t, [EmitSeatLockFailed s "Server error"]).
Proof.
  intros Hv He. unfold valid_request in Hv. apply Bool.negb_true_iff in Hv.
  unfold lockSeat_fields. unfold_js. by rewrite Hv, He.
Qed.

(** The same when only the [seatIndex] has no key conversion: the entry
    of the event has been created by then. *)
Lemma lockSeat_fields_bad_seat t now e s u ek :
  valid_request e s u = true → to_key e = Some ek → to_key s = None →
  run (lockSeat_fields now e s u) t
  = (Normal tt, with_event ek t, [EmitSeatLockFailed s "Server error"]).
Proof.
  intros Hv He Hs. unfold valid_request in Hv. apply Bool.negb_true_iff in Hv.
  unfold lockSeat_fields, with_event. unfold_js. rewrite Hv, He. simpl.
  destruct (t !! ek); simpl; by rewrite Hs.
Qed.

Lemma lockSeat_fields_invalid t now e s u :
  valid_request e s u = false →
  run (lockSeat_fields now e s u) t
  = (Normal tt, t, [EmitSeatLockFailed s "Invalid lock request"]).
Proof.
  intros Hv. unfold valid_request in Hv. apply Bool.negb_false_iff in Hv.
  unfold lockSeat_fields. unfold_js. by rewrite Hv.
Qed.

(** X1. A [lockSeat] request that passes the guard but whose [eventId]
    cannot be converted to a property key is answered by
    [seatLockFailed] with reason "Server error", sent to the requester
    only, and leaves the lock table as it was. *)
Theorem lockSeat_unconvertible_eventId t now p e s u :
  carries p e s u → valid_request e s u = true → to_key e = None →
  run (lockSeat now p) t = (Normal tt, t, [EmitSeatLockFailed s "Server error"]).
Proof.
  intros Hp Hv He. rewrite (lockSeat_carries _ _ _ _ _ _ Hp).
  by apply lockSeat_fields_bad_event.
Qed.

Lemma lockSeat_unconvertible_eventId_witness :
  run (lockSeat 0 (request (JObj [("toString", JNum 1)]) (JNum 3) (JStr "A"))) ∅
  = (Normal tt, ∅, [EmitSeatLockFailed (JNum 3) "Server error"]).
Proof.
  apply (lockSeat_unconvertible_eventId ∅ 0 _ (JObj [("toString", JNum 1)])
           (JNum 3) (JStr "A")).
  - apply carries_request.
  - reflexivity.
  - reflexivity.
Defined.

(** X2. In a state reached through plain requests, a [lockSeat] request
    that passes the guard, whose [eventId] converts to a key that does
    not name an inherited member but whose [seatIndex] does not convert,
    is answered by "Server error" too, but only after the entry of the
    event has been created: an event without entry gets an empty one. No
    lock is created, changed or removed. *)
Theorem lockSeat_unconvertible_seatIndex t now p e s u ek :
  carries p e s u → valid_request e s u = true →
  plain_state t →
  to_key e = Some ek → inherited ek = false → to_key s = None →
  ∃ t',
    run (lockSeat now p) t = (Normal tt, t', [EmitSeatLockFailed s "Server error"]) ∧
    (t !! ek = None → t' = <[ek := ∅]> t) ∧
    (is_Some (t !! ek) → t' = t) ∧
    (∀ ek' sk', lock_at t' ek' sk' = lock_at t ek' sk').
Proof.
  intros Hp Hv _ He _ Hs. exists (with_event ek t).
  rewrite (lockSeat_carries _ _ _ _ _ _ Hp).
  split; [by apply lockSeat_fields_bad_seat|]. split; [|split].
  - intros Ht. unfold with_event. by rewrite Ht.
  - intros [seats Ht]. unfold with_event. by rewrite Ht.
  - intros ek' sk'. apply lock_at_with_event.
Qed.

Lemma lockSeat_unconvertible_seatIndex_witness :
  ∃ t',
    run (lockSeat 0 (request (JStr "E1") (JObj [("toString", JNum 1)]) (JStr "A"))) ∅
    = (Normal tt, t', [EmitSeatLockFailed (JObj [("toString", JNum 1)]) "Server error"]) ∧
    ((∅ : gmap string (gmap string Lock)) !! "E1" = None → t' = <[ "E1" := ∅ ]> ∅) ∧
    (is_Some ((∅ : gmap string (gmap string Lock)) !! "E1") → t' = ∅) ∧
    (∀ ek' sk', lock_at t' ek' sk' = lock_at ∅ ek' sk').
Proof.
  apply (lockSeat_unconvertible_seatIndex ∅ 0 _ (JStr "E1")
           (JObj [("toString", JNum 1)]) (JStr "A") "E1").
  - apply carries_request.
  - reflexivity.
  - apply plain_state_start.
  - reflexivity.
  - reflexivity.
  - reflexivity.
Defined.

Lemma try_catch_effect_normal body e w : (try_catch body (effect e) w).1 = Normal tt.
Proof. unfold try_catch, effect. by destruct (body w) as [[[]|] w']. Qed.

Lemma run_completion (h : JS unit) t :
  (run h t).1.1 = (h (mkWorld t [])).1.
Proof. unfold run. by destruct (h (mkWorld t [])). Qed.

Lemma destructured_nullish {A} p (k : JsVal → JsVal → JsVal → JS A) :
  nullish p = true → destructured p k = throw.
Proof. by destruct p. Qed.

Lemma destructured_fields {A} p (k : JsVal → JsVal → JsVal → JS A) :
  nullish p = false →
  destructured p k
  = k (get_field p "eventId") (get_field p "seatIndex") (get_field p "userId").
Proof. by destruct p. Qed.

Lemma carries_fields p :
  nullish p = false →
  carries p (get_field p "eventId") (get_field p "seatIndex") (get_field p "userId").
Proof. intros Hp. repeat split; by intros ->. Qed.

(** X3. [lockSeat] and [unlockSeat] let an exception out in one case
    only: a message without payload ([undefined] or [null]) fails in the
    parameter pattern, before the [try]; nothing is emitted and the table
    is untouched. With any other payload, whatever its fields, both
    handlers complete normally. *)
Theorem lockSeat_unlockSeat_throw_iff_no_payload t now p :
  if nullish p then
    run (lockSeat now p) t = (Throw, t, []) ∧
    run (unlockSeat now p) t = (Throw, t, [])
  else
    (run (lockSeat now p) t).1.1 = Normal tt ∧
    (run (unlockSeat now p) t).1.1 = Normal tt.
Proof.
  destruct (nullish p) eqn:Hp.
  - unfold lockSeat, unlockSeat. by rewrite !destructured_nullish.
  - unfold lockSeat, unlockSeat. rewrite !destructured_fields by done.
    rewrite !run_completion. unfold lockSeat_fields, unlockSeat_fields.
    by rewrite !try_catch_effect_normal.
Qed.



(** ** Frames *)

(** What a [lockSeat] on given fields does to the lock of any seat. *)
Lemma lockSeat_fields_lock_at t now e s u ek' sk' :
  let t' := (run (lockSeat_fields now e s u) t).1.2 in
  lock_at t' ek' sk' = lock_at t ek' sk' ∨
  (valid_request e s u = true ∧ to_key e = Some ek' ∧ to_key s = Some sk' ∧
   lock_at t' ek' sk' = Some (mkLock u now) ∧
   ∀ lock, lock_at t ek' sk' = Some lock →
           expired now lock = true ∨ strict_eq (userId lock) u = true).
Proof.
  intros t'. unfold t'. clear t'.
  destruct (valid_request e s u) eqn:Hv;
    [|left; by rewrite lockSeat_fields_invalid].
  destruct (to_key e) as [ek|] eqn:He;
    [|left; by rewrite lockSeat_fields_bad_event].
  destruct (to_key s) as [sk|] eqn:Hs;
    [|left; rewrite (lockSeat_fields_bad_seat _ _ _ _ _ ek) by done;
      apply lock_at_with_event].
  rewrite (lockSeat_fields_valid _ _ _ _ _ ek sk Hv He Hs).
  destruct (decide (ek = ek' ∧ sk = sk')) as [[<- <-]|Hne].
  - destruct (lock_at t ek sk) as [lock|] eqn:Hl.
    + destruct (expired now lock) eqn:Hexp.
      * right. simpl. rewrite lock_at_insert, decide_True by done.
        repeat split; try done. intros ? [= <-]. by left.
      * destruct (strict_eq (userId lock) u) eqn:Heq; [|left; by simpl].
        right. simpl. rewrite lock_at_insert, decide_True by done.
        repeat split; try done.
        -- apply strict_eq_true in Heq. by rewrite Heq.
        -- intros ? [= <-]. by right.
    + right. simpl. rewrite lock_at_insert, decide_True by done.
      repeat split; done.
  - left. destruct (lock_at t ek sk) as [lock|];
      [destruct (expired now lock); [|destruct (strict_eq (userId lock) u)]|];
      simpl; rewrite ?lock_at_insert, ?decide_False; done.
Qed.

Lemma lockSeat_nullish t now p :
  nullish p = true → run (lockSeat now p) t = (Throw, t, []).
Proof. intros Hp. unfold lockSeat. by rewrite destructured_nullish. Qed.

Lemma unlockSeat_nullish t now p :
  nullish p = true → run (unlockSeat now p) t = (Throw, t, []).
Proof. intros Hp. unfold unlockSeat. by rewrite destructured_nullish. Qed.

Lemma lockSeat_lock_at t now p ek' sk' :
  let t' := (run (lockSeat now p) t).1.2 in
  lock_at t' ek' sk' = lock_at t ek' sk' ∨
  (valid_request (get_field p "eventId") (get_field p "seatIndex") (claimant_of p) = true ∧
   to_key (get_field p "eventId") = Some ek' ∧
   to_key (get_field p "seatIndex") = Some sk' ∧
   lock_at t' ek' sk' = Some (mkLock (claimant_of p) now) ∧
   ∀ lock, lock_at t ek' sk' = Some lock →
           expired now lock = true ∨ strict_eq (userId lock) (claimant_of p) = true).
Proof.
  destruct (nullish p) eqn:Hp.
  - left. by rewrite lockSeat_nullish.
  - simpl. rewrite (lockSeat_carries _ _ _ _ _ _ (carries_fields p Hp)).
    apply lockSeat_fields_lock_at.
Qed.

(** X5. In a state reached through plain requests, a plain [lockSeat]
    call (its [eventId] names no inherited member, its [seatIndex] is not
    [__proto__]), whatever else its payload holds, touches at most the
    lock of the seat it names: the lock of any other seat is as before,
    and the named seat either keeps its lock or holds [{userId, now}] of
    the request afterwards. In particular [lockSeat] never removes a
    lock. *)
Theorem lockSeat_frame t now p ek' sk' :
  plain_state t → plain_delivery (LockSeat p) = true →
  let t' := (run (lockSeat now p) t).1.2 in
  (lock_at t' ek' sk' = lock_at t ek' sk' ∨
   (to_key (get_field p "eventId") = Some ek' ∧
    to_key (get_field p "seatIndex") = Some sk' ∧
    lock_at t' ek' sk' = Some (mkLock (claimant_of p) now))) ∧
  (is_Some (lock_at t ek' sk') → is_Some (lock_at t' ek' sk')).
Proof.
  intros _ _ t'.
  destruct (lockSeat_lock_at t now p ek' sk') as [Heq | (_ & He & Hs & Hl & _)];
    fold t' in Heq || fold t' in Hl.
  - split; [by left|]. by rewrite Heq.
  - split; [right; done|]. intros _. by rewrite Hl.
Qed.

Lemma lockSeat_frame_witness :
  let t := {[ "E1" := {[ "3" := mkLock (JStr "A") 0 ]} ]} in
  let t' := (run (lockSeat 1000 (request (JStr "E1") (JNum 4) (JStr "B"))) t).1.2 in
  (lock_at t' "E1" "3" = lock_at t "E1" "3" ∨
   (to_key (get_field (request (JStr "E1") (JNum 4) (JStr "B")) "eventId") = Some "E1" ∧
    to_key (get_field (request (JStr "E1") (JNum 4) (JStr "B")) "seatIndex") = Some "3" ∧
    lock_at t' "E1" "3"
    = Some (mkLock (claimant_of (request (JStr "E1") (JNum 4) (JStr "B"))) 1000))) ∧
  (is_Some (lock_at t "E1" "3") → is_Some (lock_at t' "E1" "3")).
Proof.
  apply (lockSeat_frame {[ "E1" := {[ "3" := mkLock (JStr "A") 0 ]} ]} 1000
           (request (JStr "E1") (JNum 4) (JStr "B")) "E1" "3").
  - apply plain_state_one_lock.
  - reflexivity.
Defined.

(** What an [unlockSeat] on given fields does to the table. *)
Lemma unlockSeat_fields_table t now e s u :
  let t' := (run (unlockSeat_fields now e s u) t).1.2 in
  t' = t ∨
  ∃ ek sk lock,
    to_key e = Some ek ∧ to_key s = Some sk ∧ lock_at t ek sk = Some lock ∧
    (falsy u = true ∨ strict_eq (userId lock) u = true ∨ expired now lock = true) ∧
    t' = <[ek := delete sk (seats_of t ek)]> t.
Proof.
  intros t'. unfold t'. clear t'.
  destruct (to_key e) as [ek|] eqn:He.
  - destruct (t !! ek) as [seats|] eqn:Ht.
    + destruct (to_key s) as [sk|] eqn:Hs.
      * rewrite (unlockSeat_fields_keys _ _ _ _ _ ek sk He Hs).
        destruct (lock_at t ek sk) as [lock|] eqn:Hl;
          [|left; by destruct (inherited_slot t ek sk && falsy u)].
        destruct (falsy u || strict_eq (userId lock) u || expired now lock) eqn:Hc;
          [|by left].
        right. exists ek, sk, lock. repeat split; try done.
        apply Bool.orb_true_iff in Hc as [Hc|Hc]; [|tauto].
        apply Bool.orb_true_iff in Hc. tauto.
      * left. unfold unlockSeat_fields. unfold_js. by rewrite He; simpl; rewrite Ht, Hs.
    + left. unfold unlockSeat_fields. unfold_js. by rewrite He; simpl; rewrite Ht.
  - left. unfold unlockSeat_fields. unfold_js. by rewrite He.
Qed.

Lemma unlockSeat_table t now p :
  let t' := (run (unlockSeat now p) t).1.2 in
  t' = t ∨
  ∃ ek sk lock,
    to_key (get_field p "eventId") = Some ek ∧
    to_key (get_field p "seatIndex") = Some sk ∧ lock_at t ek sk = Some lock ∧
    (falsy (claimant_of p) = true ∨ strict_eq (userId lock) (claimant_of p) = true
     ∨ expired now lock = true) ∧
    t' = <[ek := delete sk (seats_of t ek)]> t.
Proof.
  destruct (nullish p) eqn:Hp.
  - left. by rewrite unlockSeat_nullish.
  - simpl. rewrite (unlockSeat_carries _ _ _ _ _ _ (carries_fields p Hp)).
    apply unlockSeat_fields_table.
Qed.


(** ** Runs of callbacks *)

Lemma run_effect e t : run (effect e) t = (Normal tt, t, [e]).
Proof. reflexivity. Qed.

Lemma lockSeat_fields_dom t now e s u :
  dom t ⊆ dom (run (lockSeat_fields now e s u) t).1.2.
Proof.
  assert (Hins : ∀ ek (v : gmap string Lock), dom t ⊆ dom (<[ek := v]> t)).
  { intros ek v. rewrite dom_insert_L. apply union_subseteq_r. }
  destruct (valid_request e s u) eqn:Hv; [|by rewrite lockSeat_fields_invalid].
  destruct (to_key e) as [ek|] eqn:He; [|by rewrite lockSeat_fields_bad_event].
  destruct (to_key s) as [sk|] eqn:Hs.
  - rewrite (lockSeat_fields_valid _ _ _ _ _ ek sk Hv He Hs).
    destruct (lock_at t ek sk) as [lock|];
      [destruct (expired now lock); [|destruct (strict_eq (userId lock) u)]|];
      simpl; done.
  - rewrite (lockSeat_fields_bad_seat _ _ _ _ _ ek) by done. simpl.
    unfold with_event. by destruct (t !! ek).
Qed.

(** No callback drops the entry of an event. *)
Lemma deliver_dom t now d : dom t ⊆ dom (run (deliver now d) t).1.2.
Proof.
  destruct d as [|e|p|p| |]; simpl deliver.
  - by rewrite run_effect.
  - by rewrite joinEvent_run.
  - destruct (nullish p) eqn:Hp; [by rewrite lockSeat_nullish|].
    rewrite (lockSeat_carries _ _ _ _ _ _ (carries_fields p Hp)).
    apply lockSeat_fields_dom.
  - destruct (unlockSeat_table t now p) as [-> | (ek & sk & lock & _ & _ & _ & _ & ->)];
      [done|].
    rewrite dom_insert_L. apply union_subseteq_r.
  - by rewrite run_effect.
  - rewrite sweep_tick_run. simpl. by rewrite dom_fmap_L.
Qed.

(** Where the locks of the table left by a callback come from. *)
Lemma deliver_lock_origin t now d ek sk l :
  lock_at (run (deliver now d) t).1.2 ek sk = Some l →
  lock_at t ek sk = Some l ∨
  ∃ p, d = LockSeat p ∧
       valid_request (get_field p "eventId") (get_field p "seatIndex") (claimant_of p)
       = true ∧
       to_key (get_field p "eventId") = Some ek ∧
       to_key (get_field p "seatIndex") = Some sk ∧
       l = mkLock (claimant_of p) now.
Proof.
  destruct d as [|e|p|p| |]; simpl deliver.
  - rewrite run_effect. by left.
  - rewrite joinEvent_run. by left.
  - intros Hl. destruct (lockSeat_lock_at t now p ek sk) as [Heq | (Hv & He & Hs & Hnew & _)].
    + left. by rewrite <- Heq.
    + right. exists p. repeat split; try done. congruence.
  - intros Hl. left.
    destruct (unlockSeat_table t now p) as [Heq | (ek0 & sk0 & lock & _ & _ & _ & _ & Heq)];
      rewrite Heq in Hl; [done|].
    rewrite lock_at_delete in Hl. by destruct (decide (ek0 = ek ∧ sk0 = sk)).
  - rewrite run_effect. by left.
  - rewrite sweep_tick_run. simpl. rewrite lock_at_keep_active. intros Hl. left.
    destruct (lock_at t ek sk) as [lock|]; [|done]. by destruct (expired now lock).
Qed.

Lemma deliver_all_cons now d ds t t' :
  deliver_all ((now, d) :: ds) t = Some t' →
  deliver_all ds (run (deliver now d) t).1.2 = Some t'.
Proof.
  simpl. destruct (run (deliver now d) t) as [[[[]|] t1] out]; [done|discriminate].
Qed.

(** X7. Along any run of callbacks (connections, joins, [lockSeat],
    [unlockSeat], disconnections, timer ticks) the entry of an event,
    once in [lockedSeats], stays there: releasing or expiring its last
    lock leaves an empty entry behind, and nothing deletes it. *)
Theorem event_entries_never_removed ds :
  ∀ t t', deliver_all ds t = Some t' → dom t ⊆ dom t'.
Proof.
  induction ds as [|[now d] ds IH]; intros t t' Hrun.
  - by injection Hrun as ->.
  - apply deliver_all_cons in Hrun. apply IH in Hrun.
    etrans; [apply deliver_dom|done].
Qed.

Lemma event_entries_never_removed_witness :
  dom ({[ "E1" := {[ "3" := mkLock (JStr "A") 0 ]} ]} : gmap string (gmap string Lock))
  ⊆ dom ({[ "E1" := ∅ ]} : gmap string (gmap string Lock)).
Proof.
  apply (event_entries_never_removed
           [(90000, UnlockSeat (request (JStr "E1") (JNum 3) (JStr "A")));
            (400000, TimerTick)]).
  vm_compute. reflexivity.
Defined.

(** X8. In the table left by any run of plain callbacks, started in a
    state reached through plain requests, every lock either was
    there at the start, for the same seat, or is exactly the
    [{userId, timestamp}] written by one [lockSeat] of the run: the
    payload passed the guard (so the holder is non-empty), its [eventId]
    and [seatIndex] convert to the keys under which the lock is stored,
    and the timestamp is the clock reading of that call. From the empty
    table, every lock is of the second kind. *)
Theorem locks_written_by_lockSeat ds :
  ∀ t t', plain_state t → Forall (λ nd, plain_delivery nd.2 = true) ds →
  deliver_all ds t = Some t' →
  ∀ ek sk l, lock_at t' ek sk = Some l →
    lock_at t ek sk = Some l ∨
    ∃ now p,
      (now, LockSeat p) ∈ ds ∧
      valid_request (get_field p "eventId") (get_field p "seatIndex") (claimant_of p)
      = true ∧
      falsy (userId l) = false ∧
      to_key (get_field p "eventId") = Some ek ∧
      to_key (get_field p "seatIndex") = Some sk ∧
      l = mkLock (claimant_of p) now.
Proof.
  intros t t' _ _. revert t t'.
  induction ds as [|[now d] ds IH]; intros t t' Hrun ek sk l Hl.
  - injection Hrun as ->. by left.
  - apply deliver_all_cons in Hrun.
    destruct (IH _ _ Hrun ek sk l Hl) as [Hprev | (now' & p & Hin & Hrest)].
    + destruct (deliver_lock_origin t now d ek sk l Hprev)
        as [Hold | (p & -> & Hv & He & Hs & ->)]; [by left|].
      right. exists now, p. split; [by left|]. repeat split; try done.
      apply valid_request_true in Hv. simpl. tauto.
    + right. exists now', p. split; [by right|done].
Qed.

Lemma locks_written_by_lockSeat_witness :
  lock_at ∅ "E1" "3" = Some (mkLock (JStr "A") 0) ∨
  ∃ now p,
    (now, LockSeat p) ∈ [(0, LockSeat (request (JStr "E1") (JNum 3) (JStr "A")));
                          (60000, TimerTick)] ∧
    valid_request (get_field p "eventId") (get_field p "seatIndex") (claimant_of p)
    = true ∧
    falsy (userId (mkLock (JStr "A") 0)) = false ∧
    to_key (get_field p "eventId") = Some "E1" ∧
    to_key (get_field p "seatIndex") = Some "3" ∧
    mkLock (JStr "A") 0 = mkLock (claimant_of p) now.
Proof.
  apply (locks_written_by_lockSeat
           [(0, LockSeat (request (JStr "E1") (JNum 3) (JStr "A"))); (60000, TimerTick)]
           ∅ {[ "E1" := {[ "3" := mkLock (JStr "A") 0 ]} ]}).
  - apply plain_state_start.
  - repeat constructor.
  - vm_compute. reflexivity.
  - vm_compute. reflexivity.
Defined.




(** ** How the operations compose *)

(** [lockSeat] on a valid request, by the lock that counts at [now]. *)
Lemma lockSeat_by_active_lock t now p e s u ek sk :
  carries p e s u → valid_request e s u = true →
  to_key e = Some ek → to_key s = Some sk →
  run (lockSeat now p) t =
    match active_lock_at now t ek sk with
    | Some lock =>
        if strict_eq (userId lock) u then
          (Normal tt, <[ek := <[sk := mkLock (userId lock) now]> (seats_of t ek)]> t, [])
        else (Normal tt, t, [EmitSeatLockFailed s "Seat already locked"])
    | None =>
        (Normal tt, <[ek := <[sk := mkLock u now]> (seats_of t ek)]> t,
         [BroadcastSeatLocked (room_of ek) s u])
    end.
Proof.
  intros Hp Hv He Hs. rewrite (lockSeat_carries _ _ _ _ _ _ Hp).
  rewrite (lockSeat_fields_valid _ _ _ _ _ ek sk Hv He Hs). unfold active_lock_at.
  destruct (lock_at t ek sk) as [lock|]; [|done]. by destruct (expired now lock).
Qed.

(** X10. The window of a lock, in a state reached through plain requests
    and for an event whose id names no inherited member and a seat other
    than [__proto__]. After [lockSeat] has granted a free seat to
    [a] at time [T], a valid request of another claimant [b] for the same
    seat is refused with "Seat already locked" (table unchanged) at every
    time [T2] with [T2 - T <= LOCK_EXPIRY_TIME], and is granted, [b]
    replacing [a], at every time with [T2 - T > LOCK_EXPIRY_TIME]. The
    seat is the pair of keys: the two requests may spell the ids
    differently (the number [3] and the string ["3"]). *)
Theorem lockSeat_then_competitor t T T2 p1 e1 s1 a p2 e2 s2 b ek sk :
  carries p1 e1 s1 a → valid_request e1 s1 a = true →
  to_key e1 = Some ek → to_key s1 = Some sk →
  carries p2 e2 s2 b → valid_request e2 s2 b = true →
  to_key e2 = Some ek → to_key s2 = Some sk →
  plain_state t → inherited ek = false → sk ≠ "__proto__" →
  active_lock_at T t ek sk = None → a ≠ b →
  let t1 := (run (lockSeat T p1) t).1.2 in
  lock_at t1 ek sk = Some (mkLock a T) ∧
  (T2 - T ≤ LOCK_EXPIRY_TIME →
   run (lockSeat T2 p2) t1
   = (Normal tt, t1, [EmitSeatLockFailed s2 "Seat already locked"])) ∧
  (T2 - T > LOCK_EXPIRY_TIME →
   ∃ t2, run (lockSeat T2 p2) t1
         = (Normal tt, t2, [BroadcastSeatLocked (room_of ek) s2 b]) ∧
         lock_at t2 ek sk = Some (mkLock b T2)).
Proof.
  intros Hp1 Hv1 He1 Hs1 Hp2 Hv2 He2 Hs2 _ _ _ Hfree Hab t1.
  assert (Hl1 : lock_at t1 ek sk = Some (mkLock a T)).
  { unfold t1. rewrite (lockSeat_by_active_lock _ _ _ _ _ _ ek sk Hp1 Hv1 He1 Hs1), Hfree.
    simpl. rewrite lock_at_insert. by rewrite decide_True. }
  split; [done|].
  rewrite (lockSeat_by_active_lock _ _ _ _ _ _ ek sk Hp2 Hv2 He2 Hs2).
  unfold active_lock_at. rewrite Hl1. split.
  - intros Hin. assert (expired T2 (mkLock a T) = false) as ->.
    { apply expired_false. by unfold active. }
    simpl. by rewrite (strict_eq_ne _ _ Hab).
  - intros Hout. assert (expired T2 (mkLock a T) = true) as ->.
    { by apply expired_true. }
    eexists. split; [done|]. rewrite lock_at_insert. by rewrite decide_True.
Qed.

Lemma lockSeat_then_competitor_witness :
  run (lockSeat 60000 (request (JStr "E1") (JStr "3") (JStr "B")))
      (run (lockSeat 0 (request (JStr "E1") (JNum 3) (JStr "A"))) ∅).1.2
  = (Normal tt, (run (lockSeat 0 (request (JStr "E1") (JNum 3) (JStr "A"))) ∅).1.2,
     [EmitSeatLockFailed (JStr "3") "Seat already locked"]).
Proof.
  apply (lockSeat_then_competitor ∅ 0 60000
           _ (JStr "E1") (JNum 3) (JStr "A")
           _ (JStr "E1") (JStr "3") (JStr "B") "E1" "3"
           (carries_request _ _ _) eq_refl eq_refl eq_refl
           (carries_request _ _ _) eq_refl eq_refl eq_refl).
  - apply plain_state_start.
  - reflexivity.
  - discriminate.
  - vm_compute. reflexivity.
  - discriminate.
  - unfold LOCK_EXPIRY_TIME. lia.
Defined.

(** X11. Lock, then release, in a state reached through plain requests
    and for an event whose id names no inherited member and a seat other
    than [__proto__]. On a seat without lock, a granted [lockSeat]
    followed (at any time) by an [unlockSeat] with the same payload,
    whose [userId] is a string, number or boolean, broadcasts
    [seatUnlocked] and puts every seat back to the lock it had. The
    table itself is back to what it was, except that an event which had
    no entry keeps an empty one. *)
Theorem lockSeat_then_unlockSeat t T T2 p e s u ek sk :
  carries p e s u → valid_request e s u = true →
  plain_state t →
  to_key e = Some ek → inherited ek = false →
  to_key s = Some sk → sk ≠ "__proto__" →
  lock_at t ek sk = None → strict_eq u u = true →
  let t1 := (run (lockSeat T p) t).1.2 in
  let t2 := (run (unlockSeat T2 p) t1).1.2 in
  run (unlockSeat T2 p) t1
  = (Normal tt, t2, [BroadcastSeatUnlocked (room_of ek) s]) ∧
  (∀ ek' sk', lock_at t2 ek' sk' = lock_at t ek' sk') ∧
  (is_Some (t !! ek) → t2 = t) ∧
  (t !! ek = None → t2 = <[ek := ∅]> t).
Proof.
  intros Hp Hv _ He _ Hs _ Hfree Hprim t1 t2.
  assert (Ht1 : t1 = <[ek := <[sk := mkLock u T]> (seats_of t ek)]> t).
  { unfold t1. rewrite (lockSeat_by_active_lock _ _ _ _ _ _ ek sk Hp Hv He Hs).
    unfold active_lock_at. by rewrite Hfree. }
  assert (Hrun : run (unlockSeat T2 p) t1
                 = (Normal tt, <[ek := seats_of t ek]> t,
                    [BroadcastSeatUnlocked (room_of ek) s])).
  { rewrite (unlockSeat_carries _ _ _ _ _ _ Hp).
    rewrite (unlockSeat_fields_keys _ _ _ _ _ ek sk He Hs).
    rewrite Ht1 at 1. rewrite lock_at_insert, decide_True by done.
    simpl. rewrite Hprim, Bool.orb_true_r. simpl.
    rewrite Ht1. unfold seats_of at 1. rewrite lookup_insert_eq. simpl.
    rewrite insert_insert_eq, delete_insert_id; [done|].
    by rewrite seats_of_lookup. }
  assert (Ht2 : t2 = <[ek := seats_of t ek]> t) by (unfold t2; by rewrite Hrun).
  split; [by rewrite Hrun, Ht2|]. rewrite Ht2. split; [|split].
  - intros ek' sk'. unfold lock_at, seats_of.
    destruct (decide (ek = ek')) as [<-|Hne].
    + rewrite lookup_insert_eq. by destruct (t !! ek).
    + by rewrite lookup_insert_ne.
  - intros [seats Hseats]. unfold seats_of. rewrite Hseats. by apply insert_id.
  - intros Hnone. unfold seats_of. by rewrite Hnone.
Qed.

Lemma lockSeat_then_unlockSeat_witness :
  run (unlockSeat 90000 (request (JStr "E1") (JNum 3) (JStr "A")))
      (run (lockSeat 0 (request (JStr "E1") (JNum 3) (JStr "A"))) ∅).1.2
  = (Normal tt,
     (run (unlockSeat 90000 (request (JStr "E1") (JNum 3) (JStr "A")))
          (run (lockSeat 0 (request (JStr "E1") (JNum 3) (JStr "A"))) ∅).1.2).1.2,
     [BroadcastSeatUnlocked (room_of "E1") (JNum 3)]).
Proof.
  apply (lockSeat_then_unlockSeat ∅ 0 90000 _ (JStr "E1") (JNum 3) (JStr "A") "E1" "3"
           (carries_request _ _ _) eq_refl plain_state_start eq_refl eq_refl eq_refl).
  - discriminate.
  - vm_compute. reflexivity.
  - reflexivity.
Defined.

(** ** Timer ticks against the other operations *)

Lemma expired_mono S now lock : S ≤ now → expired S lock = true → expired now lock = true.
Proof. rewrite !expired_true. lia. Qed.

(** After a tick at [S], the lock that counts at any [now >= S] is the
    one that counted before the tick. *)
Lemma active_lock_at_tick S now t ek sk :
  S ≤ now →
  active_lock_at now (keep_active S <$> t) ek sk = active_lock_at now t ek sk.
Proof.
  intros HS. unfold active_lock_at. rewrite lock_at_keep_active.
  destruct (lock_at t ek sk) as [lock|]; [|done].
  destruct (expired S lock) eqn:Hexp; [|done].
  by rewrite (expired_mono S now lock HS Hexp).
Qed.

(** X12. In a state reached through plain requests, a timer tick run at
    [S2 <= S] right after a tick at [S] finds nothing to do: it emits no [seatUnlocked] and leaves the table as the
    first tick left it. In particular every expired seat is announced by
    one tick only. *)
Theorem sweep_tick_twice t S S2 :
  plain_state t → S2 ≤ S →
  let t1 := (run (sweep_tick S) t).1.2 in
  run (sweep_tick S2) t1 = (Normal tt, t1, []).
Proof.
  intros _ HS t1. unfold t1. rewrite !sweep_tick_run. simpl.
  assert (Hkeep : ∀ ek sk lock, lock_at (keep_active S <$> t) ek sk = Some lock →
                                expired S2 lock = false).
  { intros ek sk lock. rewrite lock_at_keep_active.
    destruct (lock_at t ek sk) as [l|]; [|done].
    destruct (expired S l) eqn:Hexp; [done|]. intros [= <-].
    destruct (expired S2 l) eqn:Hexp2; [|done].
    by rewrite (expired_mono S2 S l HS Hexp2) in Hexp. }
  f_equal; [f_equal|].
  - apply map_eq. intros ek. rewrite !lookup_fmap.
    destruct (t !! ek) as [seats|] eqn:Ht; [|done]. simpl. f_equal.
    apply map_eq. intros sk. rewrite keep_active_lookup.
    destruct (keep_active S seats !! sk) as [lock|] eqn:Hl; [|done].
    rewrite (Hkeep ek sk lock); [done|].
    unfold lock_at. rewrite lookup_fmap, Ht. done.
  - apply elem_of_nil_inv. intros x Hx.
    apply elem_of_sweep_broadcasts in Hx as (ek & sk & lock & _ & Hl & Hexp).
    by rewrite (Hkeep ek sk lock Hl) in Hexp.
Qed.

Lemma sweep_tick_twice_witness :
  run (sweep_tick 400000)
      (run (sweep_tick 400000) {[ "E1" := {[ "3" := mkLock (JStr "A") 0 ]} ]}).1.2
  = (Normal tt,
     (run (sweep_tick 400000) {[ "E1" := {[ "3" := mkLock (JStr "A") 0 ]} ]}).1.2, []).
Proof.
  apply (sweep_tick_twice {[ "E1" := {[ "3" := mkLock (JStr "A") 0 ]} ]} 400000 400000).
  - apply plain_state_one_lock.
  - lia.
Defined.

(** X13. Timer ticks are invisible to [joinEvent]: whatever ticks ran, at
    times up to [now], [joinEvent] at [now] emits exactly what it would
    have emitted on the table without them (the same room, the same
    snapshot). *)
Theorem joinEvent_ignores_ticks t now e ticks :
  Forall (λ S, S ≤ now) ticks →
  (run (joinEvent now e) (after_ticks ticks t)).2 = (run (joinEvent now e) t).2.
Proof.
  revert t. induction ticks as [|S ticks IH]; intros t Hticks; [done|].
  apply Forall_cons in Hticks as [HS Hticks].
  unfold after_ticks. cbn [foldl]. fold (after_ticks ticks (run (sweep_tick S) t).1.2).
  rewrite (IH _ Hticks), sweep_tick_run, !joinEvent_run. simpl.
  destruct (to_string e) as [ek|]; [|done]. do 3 f_equal.
  apply map_eq. intros sk. rewrite !snapshot_lookup, !seats_of_lookup.
  pose proof (active_lock_at_tick S now t ek sk HS) as Hact.
  unfold active_lock_at in Hact. rewrite lock_at_keep_active in *.
  destruct (lock_at t ek sk) as [lock|]; [|done].
  destruct (expired S lock) eqn:Hexp; [|done].
  by rewrite (expired_mono S now lock HS Hexp).
Qed.

Lemma joinEvent_ignores_ticks_witness :
  (run (joinEvent 301000 (JStr "E1"))
       (after_ticks [240000; 300500] {[ "E1" := {[ "7" := mkLock (JStr "A") 0 ]} ]})).2
  = (run (joinEvent 301000 (JStr "E1")) {[ "E1" := {[ "7" := mkLock (JStr "A") 0 ]} ]}).2.
Proof.
  apply (joinEvent_ignores_ticks _ 301000 (JStr "E1") [240000; 300500]).
  repeat constructor; simpl; lia.
Defined.





(** ** What the handlers emit *)






(** ** The CORS check and the error middleware *)

Lemma string_app_length (s c : string) :
  String.length (s +:+ c) = (String.length s + String.length c)%nat.
Proof. induction s as [|a s IH]; simpl; [done|by rewrite IH]. Qed.

Lemma slash_suffix_last (s c : string) :
  s +:+ "/" = c → String.get (String.length c - 1) c = String.get 0 "/".
Proof.
  intros <-. rewrite string_app_length. simpl String.length.
  replace (String.length s + 1 - 1)%nat with (0 + String.length s)%nat by lia.
  by rewrite <- String.append_correct2.
Qed.

Lemma slash_suffix_not_allowed (s : string) : s +:+ "/" ∉ allowedOrigins.
Proof.
  unfold allowedOrigins. intros Hin.
  repeat (apply elem_of_cons in Hin as [Hin|Hin];
          [apply slash_suffix_last in Hin; vm_compute in Hin; discriminate Hin|]).
  by apply elem_of_nil in Hin.
Qed.

(** X19. The CORS check compares the [Origin] header with the allowed
    origins character by character, and none of them ends with a slash:
    every origin that ends with ["/"], an allowed origin followed by a
    slash included, is logged as blocked and refused with the error "Not
    allowed by CORS". *)
Theorem cors_refuses_trailing_slash (s : string) w :
  cors_origin (JStr (s +:+ "/")) w
  = (Normal (CorsError "Not allowed by CORS"),
     mkWorld (lockedSeats w) (emitted w ++ [ConsoleLog "❌ BLOCKED ORIGIN:"])).
Proof.
  unfold cors_origin.
  assert (falsy (JStr (s +:+ "/")) = false) as ->.
  { simpl. apply String.eqb_neq. by destruct s. }
  assert (includes allowedOrigins (JStr (s +:+ "/")) = false) as ->.
  { simpl. apply bool_decide_eq_false. apply slash_suffix_not_allowed. }
  reflexivity.
Qed.

(** X20. The error middleware always replies with status 500,
    [success: false] and a non-empty [message]: the message of the error
    when it has a non-empty one, and "Internal server error" when the
    error has no message or an empty one. *)
Theorem error_middleware_reply err w :
  nullish err = false →
  ∃ reply,
    error_middleware err w
    = (Normal reply,
       mkWorld (lockedSeats w) (emitted w ++ [ConsoleError "🔥 SERVER ERROR:"])) ∧
    reply_status reply = 500 ∧ reply_success reply = false ∧
    falsy (reply_message reply) = false ∧
    (falsy (get_field err "message") = false →
     reply_message reply = get_field err "message") ∧
    (falsy (get_field err "message") = true →
     reply_message reply = JStr "Internal server error").
Proof.
  intros Herr. eexists. split.
  - destruct err; try discriminate Herr; reflexivity.
  - simpl. unfold js_or, truthy.
    destruct (falsy (get_field err "message")) eqn:Hm; simpl; repeat split; done.
Qed.

Lemma error_middleware_reply_witness :
  ∃ reply,
    error_middleware (JObj [("message", JStr "")]) (mkWorld ∅ [])
    = (Normal reply, mkWorld ∅ ([] ++ [ConsoleError "🔥 SERVER ERROR:"])) ∧
    reply_status reply = 500 ∧ reply_success reply = false ∧
    falsy (reply_message reply) = false ∧
    (falsy (get_field (JObj [("message", JStr "")]) "message") = false →
     reply_message reply = get_field (JObj [("message", JStr "")]) "message") ∧
    (falsy (get_field (JObj [("message", JStr "")]) "message") = true →
     reply_message reply = JStr "Internal server error").
Proof.
  apply (error_middleware_reply (JObj [("message", JStr "")]) (mkWorld ∅ [])).
  reflexivity.
Defined.
